(** * Client-side endpoint discovery and load balancing

    A shallow embedding of the [loadbalancer] package of
    go-mongodb-sharding-poc (static and periodic DNS resolvers, resolver
    registration, the service-config document, the health registration)
    together with the parts of the Go standard library and of gRPC that
    decide what that code does. *)

From Stdlib Require Import NArith ZArith Ascii String List Lia Bool.
From stdpp Require Import base option list strings gmap.

#[local] Set Warnings "-register-all".

Local Open Scope string_scope.

(** ** Go strings

    A Go [string] is an immutable sequence of bytes; it is embedded as a
    Rocq [string], every [ascii] being one byte. *)
Module GoString.

Definition byte (c : ascii) : N := N_of_ascii c.

(** [s[i:j]] for [i <= j <= len(s)]. *)
Definition slice (s : string) (i j : nat) : string := substring i (j - i) s.

(** [s[n:]]. *)
Fixpoint drop_bytes (n : nat) (s : string) : string :=
  match n, s with
  | S n', String _ t => drop_bytes n' t
  | _, _ => s
  end.

(** [strings.Split(s, sep)] for the one-byte separator [sep]: the pieces
    between the occurrences of [sep]; [n] occurrences give [n+1] pieces and
    the empty string gives the single piece [""]. *)
Fixpoint Split (s : string) (sep : ascii) : list string :=
  match s with
  | EmptyString => [EmptyString]
  | String c t =>
      if Ascii.eqb c sep then EmptyString :: Split t sep
      else match Split t sep with
           | p :: ps => String c p :: ps
           | [] => [String c EmptyString]
           end
  end.

(** [strings.Join(elems, sep)]. *)
Fixpoint Join (elems : list string) (sep : string) : string :=
  match elems with
  | [] => EmptyString
  | [e] => e
  | e :: es => e ++ sep ++ Join es sep
  end.

Fixpoint contains_byte (c : ascii) (s : string) : bool :=
  match s with
  | EmptyString => false
  | String d t => Ascii.eqb d c || contains_byte c t
  end.

End GoString.

(** ** unicode/utf8 and unicode.IsSpace *)
Module utf8.
Import GoString.
Local Open Scope N_scope.

Definition RuneError : N := 0xFFFD.
Definition RuneSelf : N := 0x80.
Definition UTFMax : nat := 4.

Definition maskx : N := 0x3F.
Definition mask2 : N := 0x1F.
Definition mask3 : N := 0x0F.
Definition mask4 : N := 0x07.
Definition locb : N := 0x80.
Definition hicb : N := 0xBF.

Definition xx : N := 0xF1.
Definition as_ : N := 0xF0.
Definition s1 : N := 0x02.
Definition s2 : N := 0x13.
Definition s3 : N := 0x03.
Definition s4 : N := 0x23.
Definition s5 : N := 0x34.
Definition s6 : N := 0x04.
Definition s7 : N := 0x44.

(** The table [first]: information about the first byte of an encoding. *)
Definition first (b : N) : N :=
  if b <? 0x80 then as_
  else if b <? 0xC2 then xx
  else if b <? 0xE0 then s1
  else if b =? 0xE0 then s2
  else if b <? 0xED then s3
  else if b =? 0xED then s4
  else if b <? 0xF0 then s3
  else if b =? 0xF0 then s5
  else if b <? 0xF4 then s6
  else if b =? 0xF4 then s7
  else xx.

(** The table [acceptRanges]: the range of a valid second byte. *)
Definition acceptRanges (i : N) : N * N :=
  match i with
  | 0 => (locb, hicb)
  | 1 => (0xA0, hicb)
  | 2 => (locb, 0x9F)
  | 3 => (0x90, hicb)
  | 4 => (locb, 0x8F)
  | _ => (0, 0)
  end.

Definition cont (c : ascii) : bool := (locb <=? byte c) && (byte c <=? hicb).

(** [utf8.DecodeRuneInString]: the first rune of [s] and its width in
    bytes; [(RuneError, 0)] on the empty string and [(RuneError, 1)] on an
    invalid encoding. *)
Definition DecodeRuneInString (s : string) : N * nat :=
  match s with
  | EmptyString => (RuneError, 0%nat)
  | String c0 t0 =>
      let b0 := byte c0 in
      let x := first b0 in
      if as_ <=? x then ((if N.testbit x 0 then RuneError else b0), 1%nat)
      else
        let sz := N.land x 7 in
        let accept := acceptRanges (N.shiftr x 4) in
        if N.of_nat (String.length s) <? sz then (RuneError, 1%nat)
        else
          match t0 with
          | EmptyString => (RuneError, 1%nat)
          | String c1 t1 =>
              let b1 := byte c1 in
              if (b1 <? fst accept) || (snd accept <? b1) then (RuneError, 1%nat)
              else if sz <=? 2 then
                (N.lor (N.shiftl (N.land b0 mask2) 6) (N.land b1 maskx), 2%nat)
              else
                match t1 with
                | EmptyString => (RuneError, 1%nat)
                | String c2 t2 =>
                    let b2 := byte c2 in
                    if (b2 <? locb) || (hicb <? b2) then (RuneError, 1%nat)
                    else if sz <=? 3 then
                      (N.lor (N.lor (N.shiftl (N.land b0 mask3) 12)
                                    (N.shiftl (N.land b1 maskx) 6))
                             (N.land b2 maskx), 3%nat)
                    else
                      match t2 with
                      | EmptyString => (RuneError, 1%nat)
                      | String c3 _ =>
                          let b3 := byte c3 in
                          if (b3 <? locb) || (hicb <? b3) then (RuneError, 1%nat)
                          else
                            (N.lor (N.lor (N.lor (N.shiftl (N.land b0 mask4) 18)
                                                 (N.shiftl (N.land b1 maskx) 12))
                                          (N.shiftl (N.land b2 maskx) 6))
                                   (N.land b3 maskx), 4%nat)
                      end
                end
          end
  end.

(** [utf8.RuneStart]: the byte is not a continuation byte. *)
Definition RuneStart (b : N) : bool := negb (N.land b 0xC0 =? 0x80).

Definition byte_at (s : string) (i : nat) : N :=
  match String.get i s with Some c => byte c | None => 0 end.

(** The loop [for start--; start >= lim; start-- { if RuneStart(s[start])
    { break } }] of [DecodeLastRuneInString], entered with [k] candidate
    positions [lim .. lim+k-1] left; the result is the final [start], one
    below [lim] when no candidate starts a rune. *)
Fixpoint backScan (s : string) (lim : nat) (k : nat) : Z :=
  match k with
  | O => (Z.of_nat lim - 1)%Z
  | S k' => if RuneStart (byte_at s (lim + k')) then Z.of_nat (lim + k')
            else backScan s lim k'
  end.

(** [utf8.DecodeLastRuneInString]. *)
Definition DecodeLastRuneInString (s : string) : N * nat :=
  let end_ := String.length s in
  match end_ with
  | O => (RuneError, 0%nat)
  | S start =>
      let r := byte_at s start in
      if r <? RuneSelf then (r, 1%nat)
      else
        let lim := (end_ - UTFMax)%nat in
        let start' := Z.to_nat (Z.max 0 (backScan s lim (start - lim))) in
        let '(r, size) := DecodeRuneInString (slice s start' end_) in
        if Nat.eqb (start' + size) end_ then (r, size) else (RuneError, 1%nat)
  end.

(** [unicode.IsSpace]: the Latin-1 spaces, then the [White_Space] table. *)
Definition IsSpace (r : N) : bool :=
  if r <=? 0xFF then
    (r =? 0x09) || (r =? 0x0A) || (r =? 0x0B) || (r =? 0x0C) || (r =? 0x0D)
    || (r =? 0x20) || (r =? 0x85) || (r =? 0xA0)
  else
    (r =? 0x1680) || ((0x2000 <=? r) && (r <=? 0x200A))
    || (r =? 0x2028) || (r =? 0x2029) || (r =? 0x202F) || (r =? 0x205F)
    || (r =? 0x3000).

End utf8.

(** ** strings.TrimSpace *)
Module strings.
Import GoString utf8.

(** The table [asciiSpace]. *)
Definition asciiSpace (b : N) : bool :=
  ((b =? 0x09) || (b =? 0x0A) || (b =? 0x0B) || (b =? 0x0C) || (b =? 0x0D)
   || (b =? 0x20))%N.

(** [indexFunc(s, f, truth)]: the byte index of the first rune [r] of [s]
    with [f(r) == truth], the runes being those of [for i, r := range s];
    [None] stands for [-1]. [i] is the index of the head of [s] in the
    whole string and [fuel] bounds the number of runes. *)
Fixpoint indexFunc_from (fuel : nat) (s : string) (i : nat)
    (f : N -> bool) (truth : bool) : option nat :=
  match fuel with
  | O => None
  | S fuel' =>
      match s with
      | EmptyString => None
      | _ =>
          let '(r, size) := DecodeRuneInString s in
          if Bool.eqb (f r) truth then Some i
          else indexFunc_from fuel' (drop_bytes size s) (i + size) f truth
      end
  end.

Definition indexFunc (s : string) (f : N -> bool) (truth : bool) : option nat :=
  indexFunc_from (String.length s) s 0 f truth.

(** [lastIndexFunc(s, f, truth)], the loop running with index [i]. *)
Fixpoint lastIndexFunc_from (fuel : nat) (s : string) (i : nat)
    (f : N -> bool) (truth : bool) : option nat :=
  match fuel with
  | O => None
  | S fuel' =>
      match i with
      | O => None
      | _ =>
          let '(r, size) := DecodeLastRuneInString (slice s 0 i) in
          let i' := (i - size)%nat in
          if Bool.eqb (f r) truth then Some i'
          else lastIndexFunc_from fuel' s i' f truth
      end
  end.

Definition lastIndexFunc (s : string) (f : N -> bool) (truth : bool) : option nat :=
  lastIndexFunc_from (String.length s) s (String.length s) f truth.

Definition TrimLeftFunc (s : string) (f : N -> bool) : string :=
  match indexFunc s f false with
  | None => EmptyString
  | Some i => drop_bytes i s
  end.

Definition TrimRightFunc (s : string) (f : N -> bool) : string :=
  match lastIndexFunc s f false with
  | Some i =>
      if (RuneSelf <=? byte_at s i)%N then
        slice s 0 (i + snd (DecodeRuneInString (drop_bytes i s)))
      else slice s 0 (i + 1)
  | None => slice s 0 0
  end.

Definition TrimFunc (s : string) (f : N -> bool) : string :=
  TrimRightFunc (TrimLeftFunc s f) f.

(** The outcome of one of the two ASCII loops of [TrimSpace]: the loop
    ended at index [i], or met a non-ASCII byte at [i] (resp. ending at
    [i]) and leaves the rest to the Unicode-aware functions. *)
Inductive scan := Done (i : nat) | Slow (i : nat).

(** [for ; start < len(s); start++], run on the suffix [s] at [start]. *)
Fixpoint scanStart (s : string) (start : nat) : scan :=
  match s with
  | EmptyString => Done start
  | String c t =>
      if (RuneSelf <=? byte c)%N then Slow start
      else if asciiSpace (byte c) then scanStart t (S start)
      else Done start
  end.

(** [for ; stop > start; stop--] with [stop = start + n]. *)
Fixpoint scanStop (s : string) (start n : nat) : scan :=
  match n with
  | O => Done start
  | S n' =>
      let c := byte_at s (start + n') in
      if (RuneSelf <=? c)%N then Slow (start + n)
      else if asciiSpace c then scanStop s start n'
      else Done (start + n)
  end.

(** [strings.TrimSpace]: [s] without leading and trailing white space, as
    defined by Unicode. *)
Definition TrimSpace (s : string) : string :=
  match scanStart s 0 with
  | Slow start => TrimFunc (drop_bytes start s) IsSpace
  | Done start =>
      match scanStop s start (String.length s - start) with
      | Slow stop => TrimRightFunc (slice s start stop) IsSpace
      | Done stop => slice s start stop
      end
  end.

End strings.


(** ** encoding/json

    [json.Marshal] on the Go values that occur in this program, and the
    reading of a JSON text ([json.Unmarshal] into [interface{}]). *)
Module json.
Import GoString utf8.

Definition dquote : ascii := ascii_of_nat 34.
Definition backslash : ascii := ascii_of_nat 92.

(** The Go values handed to [json.Marshal] as [interface{}]. A map literal
    is the list of its entries (their keys are distinct); [VChan] is a
    channel, one of the types the encoder rejects. *)
Inductive value :=
| VString (s : string)
| VMap (m : list (string * value))
| VSlice (l : list value)
| VChan.

Inductive MarshalError := UnsupportedTypeError.

(** The table [hex]. *)
Definition hex (n : N) : ascii :=
  match String.get (N.to_nat n) "0123456789abcdef" with
  | Some c => c
  | None => "0"%char
  end.

(** The table [htmlSafeSet]: the ASCII bytes written as they are. *)
Definition htmlSafeSet (b : N) : bool :=
  ((0x20 <=? b) && (b <? 0x80)
   && negb ((b =? 0x22) || (b =? 0x26) || (b =? 0x3C) || (b =? 0x3E) || (b =? 0x5C)))%N.

(** The [switch b] of [appendString] for an ASCII byte outside
    [htmlSafeSet]. *)
Definition escapeByte (c : ascii) : string :=
  let b := byte c in
  if ((b =? 0x5C) || (b =? 0x22))%N then String backslash (String c EmptyString)
  else if (b =? 0x08)%N then String backslash "b"
  else if (b =? 0x0C)%N then String backslash "f"
  else if (b =? 0x0A)%N then String backslash "n"
  else if (b =? 0x0D)%N then String backslash "r"
  else if (b =? 0x09)%N then String backslash "t"
  else String backslash
         (String "u" (String "0" (String "0"
            (String (hex (N.shiftr b 4)) (String (hex (N.land b 0xF)) EmptyString))))).

(** The loop of [appendString(dst, src, escapeHTML = true)] on the rest
    [src] of the string, between the two quotes. The Go loop copies
    [src[start:i]] in runs; here every byte is written when it is passed.
    [fuel] bounds the number of iterations. *)
Fixpoint appendString_from (fuel : nat) (src : string) : string :=
  match fuel with
  | O => EmptyString
  | S fuel' =>
      match src with
      | EmptyString => EmptyString
      | String c t =>
          let b := byte c in
          if (b <? RuneSelf)%N then
            if htmlSafeSet b then String c (appendString_from fuel' t)
            else escapeByte c ++ appendString_from fuel' t
          else
            let n := Nat.min (String.length src) UTFMax in
            let '(r, size) := DecodeRuneInString (slice src 0 n) in
            if (r =? RuneError)%N && Nat.eqb size 1 then
              String backslash "ufffd" ++ appendString_from fuel' (drop_bytes size src)
            else if ((r =? 0x2028) || (r =? 0x2029))%N then
              String backslash "u202" ++ String (hex (N.land r 0xF)) EmptyString
                ++ appendString_from fuel' (drop_bytes size src)
            else
              slice src 0 size ++ appendString_from fuel' (drop_bytes size src)
      end
  end.

Definition appendString (src : string) : string :=
  String dquote (appendString_from (String.length src) src ++ String dquote EmptyString).

(** Insertion of an encoded entry by key (byte-wise order, as
    [strings.Compare]). *)
Fixpoint insert_sorted (kv : string * string) (l : list (string * string))
    : list (string * string) :=
  match l with
  | [] => [kv]
  | kv' :: l' =>
      if String.leb (fst kv) (fst kv') then kv :: l
      else kv' :: insert_sorted kv l'
  end.

Definition sort_entries (l : list (string * string)) : list (string * string) :=
  fold_right insert_sorted [] l.

(** The encoder. A map is written with its keys sorted; the entries are
    encoded first and sorted afterwards, which gives the same text. *)
Fixpoint encode (v : value) : MarshalError + string :=
  match v with
  | VString s => inr (appendString s)
  | VMap m =>
      let encode_entries :=
        fix encode_entries (m : list (string * value))
            : MarshalError + list (string * string) :=
          match m with
          | [] => inr []
          | (k, v) :: m' =>
              match encode v, encode_entries m' with
              | inr e, inr es => inr ((k, e) :: es)
              | inl err, _ => inl err
              | _, inl err => inl err
              end
          end in
      match encode_entries m with
      | inl err => inl err
      | inr es =>
          inr ("{" ++ Join (map (fun kv => appendString (fst kv) ++ ":" ++ snd kv)
                                (sort_entries es)) "," ++ "}")
      end
  | VSlice l =>
      let encode_elems :=
        fix encode_elems (l : list value) : MarshalError + list string :=
          match l with
          | [] => inr []
          | v :: l' =>
              match encode v, encode_elems l' with
              | inr e, inr es => inr (e :: es)
              | inl err, _ => inl err
              | _, inl err => inl err
              end
          end in
      match encode_elems l with
      | inl err => inl err
      | inr es => inr ("[" ++ Join es "," ++ "]")
      end
  | VChan => inl UnsupportedTypeError
  end.

(** [json.Marshal]. *)
Definition Marshal (v : value) : MarshalError + string := encode v.

(** *** Reading a JSON text *)

Inductive json :=
| JNull
| JBool (b : bool)
| JNumber (literal : string)
| JString (s : string)
| JArray (elems : list json)
| JObject (members : list (string * json)).

Definition is_ws (c : ascii) : bool :=
  let b := byte c in ((b =? 0x20) || (b =? 0x09) || (b =? 0x0A) || (b =? 0x0D))%N.

Fixpoint skip_ws (s : string) : string :=
  match s with
  | String c t => if is_ws c then skip_ws t else s
  | EmptyString => s
  end.

Definition hexval (c : ascii) : option N :=
  let b := byte c in
  if ((0x30 <=? b) && (b <=? 0x39))%N then Some (b - 0x30)%N
  else if ((0x61 <=? b) && (b <=? 0x66))%N then Some (b - 0x61 + 10)%N
  else if ((0x41 <=? b) && (b <=? 0x46))%N then Some (b - 0x41 + 10)%N
  else None.

(** [getu4]: the rune of the four hex digits that follow a [\u]. *)
Definition getu4 (s : string) : option (N * string) :=
  match s with
  | String h1 (String h2 (String h3 (String h4 t))) =>
      match hexval h1, hexval h2, hexval h3, hexval h4 with
      | Some a, Some b, Some c, Some d => Some (a * 4096 + b * 256 + c * 16 + d, t)%N
      | _, _, _, _ => None
      end
  | _ => None
  end.

Definition chr (n : N) : ascii := ascii_of_N n.

(** [utf8.EncodeRune] (surrogates and runes out of range become U+FFFD). *)
Definition EncodeRune (r : N) : string :=
  let r := if ((0xD800 <=? r) && (r <=? 0xDFFF) || (0x10FFFF <? r))%N then RuneError else r in
  if (r <? 0x80)%N then String (chr r) EmptyString
  else if (r <? 0x800)%N then
    String (chr (N.lor 0xC0 (N.shiftr r 6)))
      (String (chr (N.lor 0x80 (N.land r 0x3F))) EmptyString)
  else if (r <? 0x10000)%N then
    String (chr (N.lor 0xE0 (N.shiftr r 12)))
      (String (chr (N.lor 0x80 (N.land (N.shiftr r 6) 0x3F)))
         (String (chr (N.lor 0x80 (N.land r 0x3F))) EmptyString))
  else
    String (chr (N.lor 0xF0 (N.shiftr r 18)))
      (String (chr (N.lor 0x80 (N.land (N.shiftr r 12) 0x3F)))
         (String (chr (N.lor 0x80 (N.land (N.shiftr r 6) 0x3F)))
            (String (chr (N.lor 0x80 (N.land r 0x3F))) EmptyString))).

Definition isSurrogate (r : N) : bool := ((0xD800 <=? r) && (r <? 0xE000))%N.

(** [utf16.DecodeRune]: the rune of a surrogate pair, U+FFFD when the two
    halves are not a pair. *)
Definition utf16_DecodeRune (r1 r2 : N) : N :=
  if ((0xD800 <=? r1) && (r1 <? 0xDC00) && (0xDC00 <=? r2) && (r2 <? 0xE000))%N
  then ((r1 - 0xD800) * 1024 + (r2 - 0xDC00) + 0x10000)%N
  else RuneError.

Definition cons_fst (p : string) (r : option (string * string)) : option (string * string) :=
  match r with
  | Some (v, rest) => Some (p ++ v, rest)
  | None => None
  end.

(** The text of a string literal after its opening quote: the string it
    denotes and the input after the closing quote. Escapes are replaced,
    invalid UTF-8 is coerced to U+FFFD and a valid encoding is kept as it
    is; a control character is an error. *)
Fixpoint unquote_from (fuel : nat) (s : string) : option (string * string) :=
  match fuel with
  | O => None
  | S fuel' =>
      match s with
      | EmptyString => None
      | String c t =>
          let b := byte c in
          if Ascii.eqb c dquote then Some (EmptyString, t)
          else if Ascii.eqb c backslash then
            match t with
            | EmptyString => None
            | String e t' =>
                let be := byte e in
                if ((be =? 0x22) || (be =? 0x5C) || (be =? 0x2F))%N then
                  cons_fst (String e EmptyString) (unquote_from fuel' t')
                else if (be =? 0x62)%N then cons_fst (String (chr 0x08) EmptyString) (unquote_from fuel' t')
                else if (be =? 0x66)%N then cons_fst (String (chr 0x0C) EmptyString) (unquote_from fuel' t')
                else if (be =? 0x6E)%N then cons_fst (String (chr 0x0A) EmptyString) (unquote_from fuel' t')
                else if (be =? 0x72)%N then cons_fst (String (chr 0x0D) EmptyString) (unquote_from fuel' t')
                else if (be =? 0x74)%N then cons_fst (String (chr 0x09) EmptyString) (unquote_from fuel' t')
                else if (be =? 0x75)%N then
                  match getu4 t' with
                  | None => None
                  | Some (rr, t'') =>
                      if isSurrogate rr then
                        match t'' with
                        | String b1 (String b2 t3) =>
                            if Ascii.eqb b1 backslash && (byte b2 =? 0x75)%N then
                              match getu4 t3 with
                              | Some (rr1, t4) =>
                                  if (utf16_DecodeRune rr rr1 =? RuneError)%N then
                                    cons_fst (EncodeRune RuneError) (unquote_from fuel' t'')
                                  else
                                    cons_fst (EncodeRune (utf16_DecodeRune rr rr1))
                                      (unquote_from fuel' t4)
                              | None => cons_fst (EncodeRune RuneError) (unquote_from fuel' t'')
                              end
                            else cons_fst (EncodeRune RuneError) (unquote_from fuel' t'')
                        | _ => cons_fst (EncodeRune RuneError) (unquote_from fuel' t'')
                        end
                      else cons_fst (EncodeRune rr) (unquote_from fuel' t'')
                  end
                else None
            end
          else if (b <? 0x20)%N then None
          else if (b <? RuneSelf)%N then cons_fst (String c EmptyString) (unquote_from fuel' t)
          else
            let '(r, size) := DecodeRuneInString s in
            if (r =? RuneError)%N && Nat.eqb size 1 then
              cons_fst (EncodeRune RuneError) (unquote_from fuel' t)
            else cons_fst (slice s 0 size) (unquote_from fuel' (drop_bytes size s))
      end
  end.

Definition unquote (s : string) : option (string * string) :=
  unquote_from (String.length s) s.

Definition is_digit (c : ascii) : bool := ((0x30 <=? byte c) && (byte c <=? 0x39))%N.

Fixpoint span_digits (s : string) : string * string :=
  match s with
  | String c t =>
      if is_digit c then let '(d, r) := span_digits t in (String c d, r)
      else (EmptyString, s)
  | EmptyString => (EmptyString, s)
  end.

(** A number literal: an optional minus sign, then 0 or a digit 1-9 and
    further digits, then an optional fraction (a dot and digits) and an
    optional exponent (e or E, an optional sign, digits). *)
Definition scan_number (s : string) : option (string * string) :=
  let '(sign, s1) :=
    match s with
    | String c t => if (byte c =? 0x2D)%N then ("-", t) else (EmptyString, s)
    | _ => (EmptyString, s)
    end in
  match s1 with
  | String c t =>
      if is_digit c then
        let '(int, s2) :=
          if (byte c =? 0x30)%N then ("0", t) else span_digits s1 in
        let frac :=
          match s2 with
          | String d t2 =>
              if (byte d =? 0x2E)%N then
                match span_digits t2 with
                | (EmptyString, _) => None
                | (ds, r) => Some ("." ++ ds, r)
                end
              else Some (EmptyString, s2)
          | _ => Some (EmptyString, s2)
          end in
        match frac with
        | None => None
        | Some (fr, s3) =>
            match s3 with
            | String e t3 =>
                if ((byte e =? 0x65) || (byte e =? 0x45))%N then
                  let '(es, t4) :=
                    match t3 with
                    | String g t' =>
                        if ((byte g =? 0x2B) || (byte g =? 0x2D))%N
                        then (String g EmptyString, t') else (EmptyString, t3)
                    | _ => (EmptyString, t3)
                    end in
                  match span_digits t4 with
                  | (EmptyString, _) => None
                  | (ds, r) => Some (sign ++ int ++ fr ++ String e es ++ ds, r)
                  end
                else Some (sign ++ int ++ fr, s3)
            | _ => Some (sign ++ int ++ fr, s3)
            end
        end
      else None
  | _ => None
  end.

(** [strings.CutPrefix]. *)
Fixpoint cut_prefix (p s : string) : option string :=
  match p, s with
  | EmptyString, _ => Some s
  | String a p', String b s' => if Ascii.eqb a b then cut_prefix p' s' else None
  | _, _ => None
  end.

(** The value at the head of [s] and the input after it. Every call
    consumes input, so the length of the text is fuel enough. *)
Fixpoint parse_value (fuel : nat) (s : string) : option (json * string) :=
  match fuel with
  | O => None
  | S fuel' =>
      match skip_ws s with
      | EmptyString => None
      | String c t =>
          let b := byte c in
          if (b =? 0x7B)%N then
            match skip_ws t with
            | String c' t' =>
                if (byte c' =? 0x7D)%N then Some (JObject [], t')
                else match parse_members fuel' t with
                     | Some (ms, r) => Some (JObject ms, r)
                     | None => None
                     end
            | EmptyString => None
            end
          else if (b =? 0x5B)%N then
            match skip_ws t with
            | String c' t' =>
                if (byte c' =? 0x5D)%N then Some (JArray [], t')
                else match parse_elements fuel' t with
                     | Some (es, r) => Some (JArray es, r)
                     | None => None
                     end
            | EmptyString => None
            end
          else if Ascii.eqb c dquote then
            match unquote t with
            | Some (str, r) => Some (JString str, r)
            | None => None
            end
          else
            match cut_prefix "true" (String c t), cut_prefix "false" (String c t),
                  cut_prefix "null" (String c t) with
            | Some r, _, _ => Some (JBool true, r)
            | _, Some r, _ => Some (JBool false, r)
            | _, _, Some r => Some (JNull, r)
            | _, _, _ =>
                match scan_number (String c t) with
                | Some (lit, r) => Some (JNumber lit, r)
                | None => None
                end
            end
      end
  end
with parse_members (fuel : nat) (s : string) : option (list (string * json) * string) :=
  match fuel with
  | O => None
  | S fuel' =>
      match skip_ws s with
      | String q t =>
          if Ascii.eqb q dquote then
            match unquote t with
            | Some (key, r) =>
                match skip_ws r with
                | String colon r' =>
                    if (byte colon =? 0x3A)%N then
                      match parse_value fuel' r' with
                      | Some (v, r'') =>
                          match skip_ws r'' with
                          | String d r3 =>
                              if (byte d =? 0x2C)%N then
                                match parse_members fuel' r3 with
                                | Some (ms, r4) => Some ((key, v) :: ms, r4)
                                | None => None
                                end
                              else if (byte d =? 0x7D)%N then Some ([(key, v)], r3)
                              else None
                          | EmptyString => None
                          end
                      | None => None
                      end
                    else None
                | EmptyString => None
                end
            | None => None
            end
          else None
      | EmptyString => None
      end
  end
with parse_elements (fuel : nat) (s : string) : option (list json * string) :=
  match fuel with
  | O => None
  | S fuel' =>
      match parse_value fuel' s with
      | Some (v, r) =>
          match skip_ws r with
          | String d r' =>
              if (byte d =? 0x2C)%N then
                match parse_elements fuel' r' with
                | Some (es, r'') => Some (v :: es, r'')
                | None => None
                end
              else if (byte d =? 0x5D)%N then Some ([v], r')
              else None
          | EmptyString => None
          end
      | None => None
      end
  end.

(** The value a JSON text denotes: one value, then white space only. *)
Definition Unmarshal (text : string) : option json :=
  match parse_value (S (String.length text)) text with
  | Some (v, rest) =>
      match skip_ws rest with
      | EmptyString => Some v
      | _ => None
      end
  | None => None
  end.

(** [obj[key]] on a decoded object. *)
Fixpoint member (key : string) (ms : list (string * json)) : option json :=
  match ms with
  | [] => None
  | (k, v) :: ms' => if String.eqb k key then Some v else member key ms'
  end.

Definition field (key : string) (j : json) : option json :=
  match j with
  | JObject ms => member key ms
  | _ => None
  end.

(** [utf8.ValidString]. *)
Fixpoint ValidString_from (fuel : nat) (s : string) : bool :=
  match fuel with
  | O => true
  | S fuel' =>
      match s with
      | EmptyString => true
      | _ =>
          let '(r, size) := DecodeRuneInString s in
          if (r =? RuneError)%N && Nat.eqb size 1 then false
          else ValidString_from fuel' (drop_bytes size s)
      end
  end.

Definition ValidString (s : string) : bool := ValidString_from (String.length s) s.

(** [strings.ToValidUTF8(s, "�")] applied byte by byte: every byte
    that does not start a valid encoding becomes U+FFFD. *)
Fixpoint coerce_from (fuel : nat) (s : string) : string :=
  match fuel with
  | O => EmptyString
  | S fuel' =>
      match s with
      | EmptyString => EmptyString
      | _ =>
          let '(r, size) := DecodeRuneInString s in
          if (r =? RuneError)%N && Nat.eqb size 1 then
            EncodeRune RuneError ++ coerce_from fuel' (drop_bytes 1 s)
          else slice s 0 size ++ coerce_from fuel' (drop_bytes size s)
      end
  end.

Definition coerce (s : string) : string := coerce_from (String.length s) s.

End json.

(** ** google.golang.org/grpc/resolver

    The types of the resolver package that the program uses, and the
    process-wide registry of resolver builders. *)
Module resolver.
Import GoString.

Record Address := { Addr : string }.

#[global] Instance Address_eq_dec : EqDecision Address.
Proof. solve_decision. Defined.

Record State := { Addresses : list Address }.

(** The fields of [net/url.URL] that a target is read by. *)
Record URL := { Scheme : string; Opaque : string; Path : string }.

Record Target := { URL_ : URL }.

(** [strings.TrimPrefix(s, "/")]. *)
Definition trim_slash (s : string) : string :=
  match s with
  | String c t => if (byte c =? 0x2F)%N then t else s
  | EmptyString => s
  end.

(** [Target.Endpoint]: the path of the URL (its opaque part when the path
    is empty) without the leading slash. *)
Definition Endpoint (t : Target) : string :=
  let endpoint := Path (URL_ t) in
  let endpoint := if String.eqb endpoint "" then Opaque (URL_ t) else endpoint in
  trim_slash endpoint.

(** The connection a resolver reports to ([resolver.ClientConn]), seen
    from the resolver: [updates] are the states handed to [UpdateState],
    oldest first, and [verdict] is the error the connection answers a state
    with ([None] for [nil]). *)
Record ClientConn := {
  updates : list State;
  verdict : State -> option string
}.

Definition UpdateState (cc : ClientConn) (st : State) : ClientConn * option string :=
  ({| updates := updates cc ++ [st]; verdict := verdict cc |}, verdict cc st).

(** The implementations of [resolver.Builder]: the two of package
    [loadbalancer], and the builders the gRPC library registers for
    itself, told apart by their scheme. *)
Inductive Builder :=
| staticResolverBuilder
| periodicDNSBuilder (interval : Z)
| libraryBuilder (scheme : string).

(** The method [Scheme] of each builder. *)
Definition Builder_Scheme (b : Builder) : string :=
  match b with
  | staticResolverBuilder => "static"
  | periodicDNSBuilder _ => "dns"
  | libraryBuilder scheme => scheme
  end.

(** [resolver.Register]: [m[b.Scheme()] = b]. *)
Definition Register (b : Builder) (m : gmap string Builder) : gmap string Builder :=
  <[Builder_Scheme b := b]> m.

(** [resolver.Get]: [None] stands for [nil]. *)
Definition Get (scheme : string) (m : gmap string Builder) : option Builder :=
  m !! scheme.

(** The registry when the program starts: the builders the gRPC library
    registers in its own [init] functions. *)
Definition builtin : gmap string Builder :=
  <["dns" := libraryBuilder "dns"]>
    (<["passthrough" := libraryBuilder "passthrough"]>
       (<["unix" := libraryBuilder "unix"]>
          (<["unix-abstract" := libraryBuilder "unix-abstract"]> ∅))).

End resolver.

(** ** google.golang.org/grpc

    [grpc.NewClient] as far as it chooses the resolver builder of the
    channel ([initParsedTargetAndResolverBuilder]): the scheme of the parsed
    target is looked up in the registry, and a target without scheme, or with
    a scheme nobody registered, is read again under the default scheme
    [dns]. The other checks of [NewClient] (credentials, the default service
    config, the authority) find nothing to reject in the options this program
    passes. [url_Parse] is [net/url.Parse]. *)
Module grpc.
Import resolver.

Inductive CallOption :=
| MaxCallRecvMsgSize (bytes : Z)
| MaxCallSendMsgSize (bytes : Z).

Inductive DialOption :=
| WithTransportCredentials_insecure
| WithDefaultServiceConfig (s : string)
| WithDefaultCallOptions (cos : list CallOption)
| WithKeepaliveParams (Time Timeout : Z) (PermitWithoutStream : bool).

Record ClientConn := {
  target : string;
  parsedTarget : Target;
  resolverBuilder : Builder;
  dopts : list DialOption
}.

Inductive NewClientError :=
| ErrParseTarget                       (* the error of [url.Parse] *)
| ErrNoDefaultResolver (scheme : string).
    (* "could not get resolver for default scheme: %q" *)

Definition defaultScheme : string := "dns".

Section NewClient.
Variable url_Parse : string -> option URL.

Definition parseTarget (target : string) : option Target :=
  match url_Parse target with
  | Some u => Some {| URL_ := u |}
  | None => None
  end.

Definition withDefaultScheme (registry : gmap string Builder) (target : string)
    (opts : list DialOption) : NewClientError + ClientConn :=
  let canonicalTarget := defaultScheme ++ ":///" ++ target in
  match parseTarget canonicalTarget with
  | None => inl ErrParseTarget
  | Some parsed =>
      match Get (Scheme (URL_ parsed)) registry with
      | None => inl (ErrNoDefaultResolver (Scheme (URL_ parsed)))
      | Some rb =>
          inr {| target := target; parsedTarget := parsed;
                 resolverBuilder := rb; dopts := opts |}
      end
  end.

Definition NewClient (registry : gmap string Builder) (target : string)
    (opts : list DialOption) : NewClientError + ClientConn :=
  match parseTarget target with
  | Some parsed =>
      match Get (Scheme (URL_ parsed)) registry with
      | Some rb =>
          inr {| target := target; parsedTarget := parsed;
                 resolverBuilder := rb; dopts := opts |}
      | None => withDefaultScheme registry target opts
      end
  | None => withDefaultScheme registry target opts
  end.
End NewClient.

(** [grpc.Server], as far as services are registered on it. *)
Record Server := { services : list string }.

Definition RegisterService (name : string) (s : Server) : Server :=
  {| services := services s ++ [name] |}.

End grpc.

(** ** net/url

    [getScheme] of [net/url], and the reading of a target of the shape
    [scheme://authority/path] or [scheme:opaque]. [url.Parse] rejects more
    than this (control characters, malformed escapes, hosts and ports); the
    targets it is applied to below have none of these. *)
Module url.
Import GoString resolver.

Definition is_alpha (b : N) : bool :=
  ((0x61 <=? b) && (b <=? 0x7A) || (0x41 <=? b) && (b <=? 0x5A))%N.

Definition is_scheme_other (b : N) : bool :=
  ((0x30 <=? b) && (b <=? 0x39) || (b =? 0x2B) || (b =? 0x2D) || (b =? 0x2E))%N.

(** The loop of [getScheme] at index [i] on the rest [s] of [rawURL]:
    [Some (Some (scheme, rest))] when a scheme ends at a colon,
    [Some None] when there is no scheme, [None] for the error
    "missing protocol scheme". *)
Fixpoint getScheme_from (s : string) (i : nat) : option (option (string * string)) :=
  match s with
  | EmptyString => Some None
  | String c t =>
      let b := byte c in
      if is_alpha b then
        match getScheme_from t (S i) with
        | Some (Some (sch, rest)) => Some (Some (String c sch, rest))
        | r => r
        end
      else if is_scheme_other b then
        match i with
        | O => Some None
        | _ => match getScheme_from t (S i) with
               | Some (Some (sch, rest)) => Some (Some (String c sch, rest))
               | r => r
               end
        end
      else if (b =? 0x3A)%N then
        match i with
        | O => None
        | _ => Some (Some (EmptyString, t))
        end
      else Some None
  end.

Definition to_lower (c : ascii) : ascii :=
  let b := byte c in
  if ((0x41 <=? b) && (b <=? 0x5A))%N then ascii_of_N (b + 0x20) else c.

Fixpoint ToLower (s : string) : string :=
  match s with
  | EmptyString => EmptyString
  | String c t => String (to_lower c) (ToLower t)
  end.

(** The path of [//authority/path]: what follows the authority. *)
Fixpoint path_after_authority (s : string) : string :=
  match s with
  | EmptyString => EmptyString
  | String c t => if (byte c =? 0x2F)%N then s else path_after_authority t
  end.

Definition Parse (rawURL : string) : option URL :=
  match getScheme_from rawURL 0 with
  | None => None
  | Some None => Some {| Scheme := EmptyString; Opaque := EmptyString; Path := rawURL |}
  | Some (Some (scheme, rest)) =>
      match rest with
      | String c1 (String c2 t) =>
          if ((byte c1 =? 0x2F) && (byte c2 =? 0x2F))%N then
            Some {| Scheme := ToLower scheme; Opaque := EmptyString;
                    Path := path_after_authority t |}
          else if (byte c1 =? 0x2F)%N then
            Some {| Scheme := ToLower scheme; Opaque := EmptyString; Path := rest |}
          else Some {| Scheme := ToLower scheme; Opaque := rest; Path := EmptyString |}
      | _ =>
          match rest with
          | String c1 _ =>
              if (byte c1 =? 0x2F)%N then
                Some {| Scheme := ToLower scheme; Opaque := EmptyString; Path := rest |}
              else Some {| Scheme := ToLower scheme; Opaque := rest; Path := EmptyString |}
          | EmptyString =>
              Some {| Scheme := ToLower scheme; Opaque := EmptyString; Path := EmptyString |}
          end
      end
  end.

End url.

(** ** google.golang.org/grpc/health

    The health server of the gRPC library, the HealthRegistry of the
    spec. *)
Module health.

Inductive ServingStatus := UNKNOWN | SERVING | NOT_SERVING | SERVICE_UNKNOWN.

Record Server := { statusMap : gmap string ServingStatus }.

(** [health.NewServer]: a new server tracks the overall health, the empty
    service name, as SERVING. *)
Definition NewServer : Server := {| statusMap := {[ "" := SERVING ]} |}.

(** Modelled from the spec: [SetServingStatus] of the HealthRegistry
    (section 4.3), which is not part of the repository: it records the
    status for a service name, creating the entry if absent. *)
Definition SetServingStatus (service : string) (status : ServingStatus)
    (s : Server) : Server :=
  {| statusMap := <[service := status]> (statusMap s) |}.

(** Modelled from the spec: [GetServingStatus] of the HealthRegistry
    (section 4.3): the last status set, or UNKNOWN if none was. *)
Definition GetServingStatus (service : string) (s : Server) : ServingStatus :=
  match statusMap s !! service with
  | Some st => st
  | None => UNKNOWN
  end.

End health.

(** ** Package loadbalancer *)
Module loadbalancer.
Import GoString resolver.

Definition StaticScheme : string := "static".

(** [time.Second], a [time.Duration] in nanoseconds. *)
Definition Second : Z := 1000000000.

Definition defaultReResolveInterval : Z := 30 * Second.

(** The errors the package builds with [fmt.Errorf], by their format. *)
Inductive error :=
| ErrEmptyEndpoint (target : Target)
    (* "static resolver: empty endpoint in target %q" *)
| ErrNoValidAddresses (endpoint : string)
    (* "static resolver: no valid addresses in %q" *)
| ErrUpdateState (err : string)
    (* "static resolver: update state: %v" *)
| ErrDNSResolverNotFound
    (* "dns resolver not found (this should never happen)" *)
| ErrDNSResolverBuild (err : string)
    (* "dns resolver build: %v" *)
| ErrGrpcDial (target : string) (err : grpc.NewClientError).
    (* "grpc dial %s: %v" *)

(** *** The static resolver *)

Inductive staticResolver := mk_staticResolver.

(** The body of the loop [for _, h := range hosts]. *)
Definition add_host (addrs : list Address) (h : string) : list Address :=
  let h := strings.TrimSpace h in
  if String.eqb h "" then addrs else addrs ++ [{| Addr := h |}].

(** [staticResolverBuilder.Build]: the connection after the call, and the
    resolver or the error returned. *)
Definition static_Build (target : Target) (cc : ClientConn)
    : ClientConn * (error + staticResolver) :=
  let endpoint := Endpoint target in
  if String.eqb endpoint "" then (cc, inl (ErrEmptyEndpoint target))
  else
    let hosts := Split endpoint ","%char in
    let addrs := fold_left add_host hosts [] in
    if Nat.eqb (length addrs) 0 then (cc, inl (ErrNoValidAddresses endpoint))
    else
      let '(cc', err) := UpdateState cc {| Addresses := addrs |} in
      match err with
      | Some e => (cc', inl (ErrUpdateState e))
      | None => (cc', inr mk_staticResolver)
      end.

(** [staticResolver.ResolveNow] and [staticResolver.Close]: empty bodies. *)
Definition static_ResolveNow (r : staticResolver) (cc : ClientConn) : ClientConn := cc.

Definition static_Close (r : staticResolver) (cc : ClientConn) : ClientConn := cc.

(** The calls a resolver receives after [Build]. *)
Inductive static_call := StaticResolveNow | StaticClose.

Definition static_do (r : staticResolver) (cc : ClientConn) (c : static_call) : ClientConn :=
  match c with
  | StaticResolveNow => static_ResolveNow r cc
  | StaticClose => static_Close r cc
  end.

(** The notions the properties of the static resolver are stated with. *)

(** The entries of an endpoint: its comma-separated pieces, trimmed, the
    empty ones left out, in the order of the endpoint. *)
Definition entries (endpoint : string) : list string :=
  filter (fun h => h <> EmptyString) (map strings.TrimSpace (Split endpoint ","%char)).

(** The endpoint is white space only: [strings.IndexFunc] finds no rune
    that is not a space. *)
Definition blank (endpoint : string) : Prop :=
  strings.indexFunc endpoint utf8.IsSpace false = None.

(** The two errors for a malformed or empty endpoint. *)
Definition InvalidTarget (e : error) : Prop :=
  match e with
  | ErrEmptyEndpoint _ | ErrNoValidAddresses _ => True
  | _ => False
  end.

(** *** The periodic DNS resolver *)

(** The calls the wrapped resolver receives. *)
Inductive InnerCall := InnerResolveNow | InnerClose.

#[global] Instance InnerCall_eq_dec : EqDecision InnerCall.
Proof. solve_decision. Defined.

Inductive chan := chan_open | chan_closed.

(** The goroutine started by [go r.refreshLoop()]. *)
Inductive goroutine := Running | Returned.

(** [PeriodicDNSResolver]. [inner] is the wrapped resolver, seen as the
    calls it has received, oldest first; [once] tells whether the
    [sync.Once] has run; [loop] is the state of the refresh goroutine. The
    field [cc] of the Go struct is never read and is left out. *)
Record PeriodicDNSResolver := {
  target : Target;
  inner : list InnerCall;
  interval : Z;
  done : chan;
  once : bool;
  loop : goroutine
}.

(** The resolver [periodicDNSBuilder.Build] constructs, its refresh loop
    started: [inner] has received no call yet. *)
Definition started (target : Target) (interval : Z) : PeriodicDNSResolver :=
  {| target := target; inner := []; interval := interval;
     done := chan_open; once := false; loop := Running |}.

(** [periodicDNSBuilder.Build] for the builder [{interval}]. [dnsBuild] is
    the [Build] of the builder found under [dns]: the connection after it
    and its error, if any. *)
Definition periodic_Build (interval : Z) (registry : gmap string Builder)
    (dnsBuild : Builder -> Target -> ClientConn -> ClientConn * option string)
    (target : Target) (cc : ClientConn)
    : ClientConn * (error + PeriodicDNSResolver) :=
  match Get "dns" registry with
  | None => (cc, inl ErrDNSResolverNotFound)
  | Some dnsBuilder =>
      let '(cc', err) := dnsBuild dnsBuilder target cc in
      match err with
      | Some e => (cc', inl (ErrDNSResolverBuild e))
      | None =>
          (cc', inr (started target interval))
      end
  end.

(** A call returns, or panics. *)
Inductive outcome := Ok (r : PeriodicDNSResolver) | Panic.

Definition inner_call (c : InnerCall) (r : PeriodicDNSResolver) : PeriodicDNSResolver :=
  {| target := target r; inner := inner r ++ [c]; interval := interval r;
     done := done r; once := once r; loop := loop r |}.

(** [close(r.done)]: closing a closed channel panics. *)
Definition close_done (r : PeriodicDNSResolver) : outcome :=
  match done r with
  | chan_open =>
      Ok {| target := target r; inner := inner r; interval := interval r;
            done := chan_closed; once := once r; loop := loop r |}
  | chan_closed => Panic
  end.

(** [r.once.Do(f)]: [f] runs if no call of [Do] has run before. *)
Definition once_Do (f : PeriodicDNSResolver -> outcome) (r : PeriodicDNSResolver) : outcome :=
  if once r then Ok r
  else
    match f r with
    | Ok r' =>
        Ok {| target := target r'; inner := inner r'; interval := interval r';
              done := done r'; once := true; loop := loop r' |}
    | Panic => Panic
    end.

(** [PeriodicDNSResolver.Close]. *)
Definition Close (r : PeriodicDNSResolver) : outcome :=
  once_Do (fun r =>
    match close_done r with
    | Ok r' => Ok (inner_call InnerClose r')
    | Panic => Panic
    end) r.

(** [PeriodicDNSResolver.ResolveNow]. *)
Definition ResolveNow (r : PeriodicDNSResolver) : outcome :=
  Ok (inner_call InnerResolveNow r).

(** The case the [select] of [refreshLoop] takes. *)
Inductive selected := case_tick | case_done.

(** One round of the loop of [refreshLoop]. The case [<-ticker.C] calls
    the inner [ResolveNow]; the case [<-r.done] can be taken once the
    channel is closed, and returns. A goroutine that has returned receives
    nothing any more (its ticker is stopped). *)
Definition refreshLoop_round (c : selected) (r : PeriodicDNSResolver) : PeriodicDNSResolver :=
  match loop r with
  | Returned => r
  | Running =>
      match c with
      | case_tick => inner_call InnerResolveNow r
      | case_done =>
          match done r with
          | chan_closed =>
              {| target := target r; inner := inner r; interval := interval r;
                 done := done r; once := once r; loop := Returned |}
          | chan_open => r
          end
      end
  end.

(** What happens to a resolver during its life. *)
Inductive Event :=
| TimerTick        (* the refresh loop receives from ticker.C *)
| DoneSeen         (* the refresh loop receives from r.done *)
| CallResolveNow   (* a call of ResolveNow *)
| CallClose.       (* a call of Close *)

Definition step (e : Event) (r : PeriodicDNSResolver) : outcome :=
  match e with
  | TimerTick => Ok (refreshLoop_round case_tick r)
  | DoneSeen => Ok (refreshLoop_round case_done r)
  | CallResolveNow => ResolveNow r
  | CallClose => Close r
  end.

Fixpoint run (es : list Event) (r : PeriodicDNSResolver) : outcome :=
  match es with
  | [] => Ok r
  | e :: es' =>
      match step e r with
      | Ok r' => run es' r'
      | Panic => Panic
      end
  end.

Definition count_calls (c : InnerCall) (l : list InnerCall) : nat :=
  length (filter (fun x => x = c) l).

(** The state Closed of the resolver: [Close] has closed [r.done]. *)
Definition Closed (r : PeriodicDNSResolver) : Prop := done r = chan_closed.

#[global] Instance Event_eq_dec : EqDecision Event.
Proof. solve_decision. Defined.

(** The number of calls of [ResolveNow] among the events. *)
Definition count_ResolveNow (es : list Event) : nat :=
  length (filter (fun e => e = CallResolveNow) es).

(** Before the first [Close] the channel is open and the inner resolver
    has not been closed; afterwards both are closed, once. *)
Definition once_inv (r : PeriodicDNSResolver) : Prop :=
  if once r
  then done r = chan_closed /\ count_calls InnerClose (inner r) = 1%nat
  else done r = chan_open /\ count_calls InnerClose (inner r) = 0%nat.

(** *** Registration and dialing *)

(** [RegisterResolvers]: the registry after the call. *)
Definition RegisterResolvers (registry : gmap string Builder) : gmap string Builder :=
  Register staticResolverBuilder registry.

(** The configuration [DefaultServiceConfig] marshals. *)
Definition serviceConfig (serviceName : string) : json.value :=
  json.VMap
    [ ("loadBalancingConfig",
       json.VSlice [json.VMap [("round_robin", json.VMap [])]]);
      ("healthCheckConfig",
       json.VMap [("serviceName", json.VString serviceName)]) ].

Definition fallbackConfig : string :=
  "{" ++ json.appendString "loadBalancingConfig" ++ ":[{"
      ++ json.appendString "round_robin" ++ ":{}}]}".

(** The text before and after the service name in the marshalled
    configuration. *)
Definition config_prefix : string :=
  "{" ++ json.appendString "healthCheckConfig" ++ ":{"
      ++ json.appendString "serviceName" ++ ":".

Definition config_suffix : string :=
  "}," ++ json.appendString "loadBalancingConfig" ++ ":[{"
       ++ json.appendString "round_robin" ++ ":{}}]}".

(** The value the marshalled configuration of [name] is expected to denote. *)
Definition config_json (name : string) : json.json :=
  json.JObject
    [ ("healthCheckConfig", json.JObject [("serviceName", json.JString name)]);
      ("loadBalancingConfig",
       json.JArray [json.JObject [("round_robin", json.JObject [])]]) ].

(** [DefaultServiceConfig]. *)
Definition DefaultServiceConfig (serviceName : string) : string :=
  match json.Marshal (serviceConfig serviceName) with
  | inl err => fallbackConfig
  | inr raw => raw
  end.

(** [DialOptions]. *)
Definition DialOptions (serviceName : string) : list grpc.DialOption :=
  [ grpc.WithTransportCredentials_insecure;
    grpc.WithDefaultServiceConfig (DefaultServiceConfig serviceName);
    grpc.WithDefaultCallOptions
      [ grpc.MaxCallRecvMsgSize (16 * 1024 * 1024);
        grpc.MaxCallSendMsgSize (16 * 1024 * 1024) ];
    grpc.WithKeepaliveParams (30 * Second) (10 * Second) true ].

(** [NewClientConn]: the registry after the call, and the connection or
    the error returned. [url_Parse] is the URL parser [grpc.NewClient] reads
    the target with. *)
Definition NewClientConn (url_Parse : string -> option URL)
    (registry : gmap string Builder) (target : string)
    : gmap string Builder * (error + grpc.ClientConn) :=
  let registry := RegisterResolvers registry in
  let opts := DialOptions "sharding.v1.ShardingService" in
  match grpc.NewClient url_Parse registry target opts with
  | inl err => (registry, inl (ErrGrpcDial target err))
  | inr conn => (registry, inr conn)
  end.

(** [RegisterHealthServer]: the server with the health service registered
    on it, and the health server returned. *)
Definition RegisterHealthServer (server : grpc.Server) : grpc.Server * health.Server :=
  let healthServer := health.NewServer in
  let healthServer := health.SetServingStatus "" health.SERVING healthServer in
  let healthServer :=
    health.SetServingStatus "sharding.v1.ShardingService" health.SERVING healthServer in
  (grpc.RegisterService "grpc.health.v1.Health" server, healthServer).

End loadbalancer.

(** ** The round-robin policy

    The program selects the policy by name in its service config; the
    policy itself is the round_robin balancer of the gRPC library. *)
Module roundrobin.
Import resolver.

(** Modelled from the spec: the state of the LoadBalancingPolicy of section
    4.4, which is not part of the repository: the current address set as
    published by the resolver, the health status of each address for the
    configured service name, and the cursor. *)
Record Policy := {
  addresses : list Address;
  health_of : Address -> health.ServingStatus;
  cursor : nat
}.

Inductive DispatchError := NoAvailableEndpoint.

#[global] Instance DispatchError_eq_dec : EqDecision DispatchError.
Proof. solve_decision. Defined.

(** Modelled from the spec: the addresses a dispatch skips are those whose
    status is NOT_SERVING or SERVICE_UNKNOWN (section 4.4). *)
Definition healthy (st : health.ServingStatus) : bool :=
  match st with
  | health.NOT_SERVING | health.SERVICE_UNKNOWN => false
  | _ => true
  end.

Definition live (p : Policy) : list Address :=
  filter (fun a => healthy (health_of p a) = true) (addresses p).

(** Modelled from the spec: a dispatch request of the round-robin policy
    (section 4.4), which is not part of the repository. Among the live
    addresses it advances the cursor modulo the live count and returns the
    address the cursor is on; if the address set is empty or all addresses
    are unhealthy it fails with NoAvailableEndpoint. *)
Definition dispatch (p : Policy) : Policy * (DispatchError + Address) :=
  let l := live p in
  match l with
  | [] => (p, inl NoAvailableEndpoint)
  | a0 :: _ =>
      let c := (cursor p + 1) mod length l in
      ({| addresses := addresses p; health_of := health_of p; cursor := c |},
       inr (nth c l a0))
  end.

(** [m] consecutive dispatches: the policy afterwards and the results in
    order. *)
Fixpoint dispatches (m : nat) (p : Policy) : Policy * list (DispatchError + Address) :=
  match m with
  | O => (p, [])
  | S m' =>
      let '(p', r) := dispatch p in
      let '(p'', rs) := dispatches m' p' in
      (p'', r :: rs)
  end.

(** How often [a] was selected. *)
Definition selected (a : Address) (rs : list (DispatchError + Address)) : nat :=
  length (filter (fun r => r = inr a) rs).

End roundrobin.

(** ** Package config *)
Module config.
Import GoString.

(** [Member]: a single mongod node. *)
Record Member := { Host : string; Port : string }.

(** [ReplicaSet]: a named set of members. *)
Record ReplicaSet := { Name : string; Members : list Member }.

(** [ClusterConfig]. *)
Record ClusterConfig := {
  AdminUser : string;
  AdminPassword : string;
  AppUser : string;
  AppPassword : string;
  ReadOnlyUser : string;
  ReadOnlyPassword : string;
  AppDatabase : string;
  ConfigRS : ReplicaSet;
  Shards : list ReplicaSet;
  MongosHosts : list string
}.

(** [Member.Addr]: [host:port]. *)
Definition Addr (m : Member) : string := Host m ++ ":" ++ Port m.

(** [os.Getenv] on the environment of the process, a map from names to
    values: the value of the variable, empty if it is not set. *)
Definition Getenv (environ : gmap string string) (key : string) : string :=
  match environ !! key with
  | Some v => v
  | None => EmptyString
  end.

(** [env]: the variable if it is set and not empty, the fallback
    otherwise. *)
Definition env (environ : gmap string string) (key fallback : string) : string :=
  let v := Getenv environ key in
  if negb (String.eqb v "") then v else fallback.

(** [Load]: the cluster config of an environment. *)
Definition Load (environ : gmap string string) : ClusterConfig :=
  {| AdminUser := env environ "MONGO_ADMIN_USER" "clusterAdmin";
     AdminPassword := env environ "MONGO_ADMIN_PASSWORD" "admin123";
     AppUser := env environ "MONGO_APP_USER" "appUser";
     AppPassword := env environ "MONGO_APP_PASSWORD" "app123";
     ReadOnlyUser := env environ "MONGO_READONLY_USER" "readOnlyUser";
     ReadOnlyPassword := env environ "MONGO_READONLY_PASSWORD" "read123";
     AppDatabase := env environ "MONGO_APP_DATABASE" "sharding_poc";
     ConfigRS :=
       {| Name := "configrs";
          Members := [ {| Host := "cfg-1"; Port := "27019" |};
                       {| Host := "cfg-2"; Port := "27020" |};
                       {| Host := "cfg-3"; Port := "27021" |} ] |};
     Shards :=
       [ {| Name := "shard1rs";
            Members := [ {| Host := "shard1-1"; Port := "27022" |};
                         {| Host := "shard1-2"; Port := "27023" |};
                         {| Host := "shard1-3"; Port := "27024" |} ] |};
         {| Name := "shard2rs";
            Members := [ {| Host := "shard2-1"; Port := "27025" |};
                         {| Host := "shard2-2"; Port := "27026" |};
                         {| Host := "shard2-3"; Port := "27027" |} ] |};
         {| Name := "shard3rs";
            Members := [ {| Host := "shard3-1"; Port := "27028" |};
                         {| Host := "shard3-2"; Port := "27029" |};
                         {| Host := "shard3-3"; Port := "27030" |} ] |} ];
     MongosHosts := [ "localhost:27017"; "localhost:27018" ] |}.

(** The variables [Load] reads. *)
Definition variables : list string :=
  [ "MONGO_ADMIN_USER"; "MONGO_ADMIN_PASSWORD"; "MONGO_APP_USER";
    "MONGO_APP_PASSWORD"; "MONGO_READONLY_USER"; "MONGO_READONLY_PASSWORD";
    "MONGO_APP_DATABASE" ].

(** The seven settings [Load] takes from the environment. *)
Definition settings (c : ClusterConfig) : list string :=
  [ AdminUser c; AdminPassword c; AppUser c; AppPassword c;
    ReadOnlyUser c; ReadOnlyPassword c; AppDatabase c ].

(** All the members of the cluster. *)
Definition all_members (c : ClusterConfig) : list Member :=
  Members (ConfigRS c) ++ concat (map Members (Shards c)).

End config.

(** ** Package cluster *)
Module cluster.
Import GoString.

(** The connection string [AddShard] builds for a replica set:
    [rsName/host1:port1,host2:port2,...]. *)
Definition shardConn (rsName : string) (members : list config.Member) : string :=
  let addrs := map config.Addr members in
  rsName ++ "/" ++ Join addrs ",".

(** [strings.Repeat(s, count)]; it panics ([None]) on a negative count. *)
Definition Repeat (s : string) (count : Z) : option string :=
  if (count <? 0)%Z then None
  else Some (Nat.iter (Z.to_nat count) (fun r => s ++ r) EmptyString).

(** A Go [int], 64 bits wide: the value after an overflow wraps around. *)
Definition wrap64 (z : Z) : Z := ((z + 2 ^ 63) mod 2 ^ 64 - 2 ^ 63)%Z.

(** [truncate]: the string shortened or padded to [max] bytes; [None]
    stands for a panic. The slice [s[:k]] panics unless [0 <= k <= len(s)]. *)
Definition truncate (s : string) (max : Z) : option string :=
  let len := Z.of_nat (String.length s) in
  if (len <=? max)%Z then
    match Repeat " " (wrap64 (max - len)) with
    | Some pad => Some (s ++ pad)
    | None => None
    end
  else
    let k := wrap64 (max - 3) in
    if ((0 <=? k) && (k <=? len))%Z
    then Some (slice s 0 (Z.to_nat k) ++ "...")
    else None.

End cluster.

(** ** Package sharding: batchInsert *)
Module sharding.

(** A Go [int], 64 bits wide: the value after an overflow wraps around. *)
Definition wrap64 (z : Z) : Z := ((z + 2 ^ 63) mod 2 ^ 64 - 2 ^ 63)%Z.

(** A collection, seen from the inserting code: [inserted] are the batches
    handed to [InsertMany], oldest first, and [reject] is the error the
    server answers a batch with, given the batches before it ([None] for
    [nil]). *)
Record Collection (A : Type) := {
  inserted : list (list A);
  reject : list (list A) -> list A -> option string
}.
Arguments inserted {A} _.
Arguments reject {A} _ _ _.

Definition InsertMany {A} (coll : Collection A) (batch : list A)
    : Collection A * option string :=
  ({| inserted := inserted coll ++ [batch]; reject := reject coll |},
   reject coll (inserted coll) batch).

(** How a call ends: it returns an error or [nil], it panics, or the fuel
    of the model ran out. *)
Inductive outcome := Returns (err : option string) | Panics | OutOfFuel.

(** [docs[i:j]]: a slice expression panics unless [0 <= i <= j <= len]. *)
Definition subslice {A} (docs : list A) (i j : Z) : option (list A) :=
  if ((0 <=? i) && (i <=? j) && (j <=? Z.of_nat (length docs)))%Z
  then Some (take (Z.to_nat (j - i)) (drop (Z.to_nat i) docs))
  else None.

Definition batchSize : Z := 1000.

(** The loop [for i := 0; i < len(docs); i += batchSize] of [batchInsert],
    entered with the value [i]. *)
Fixpoint batchInsert_from {A} (fuel : nat) (i : Z) (docs : list A)
    (coll : Collection A) : Collection A * outcome :=
  match fuel with
  | O => (coll, OutOfFuel)
  | S fuel' =>
      if (i <? Z.of_nat (length docs))%Z then
        let end_ := wrap64 (i + batchSize) in
        let end_ := if (end_ >? Z.of_nat (length docs))%Z
                    then Z.of_nat (length docs) else end_ in
        match subslice docs i end_ with
        | None => (coll, Panics)
        | Some batch =>
            let '(coll', err) := InsertMany coll batch in
            match err with
            | Some e => (coll', Returns (Some e))
            | None => batchInsert_from fuel' (wrap64 (i + batchSize)) docs coll'
            end
        end
      else (coll, Returns None)
  end.

(** [batchInsert]: the collection after the call and how the call ends.
    Every round of the loop that goes on moves [i] forward, so the length of
    [docs] and one more round is fuel enough. *)
Definition batchInsert {A} (docs : list A) (coll : Collection A)
    : Collection A * outcome :=
  batchInsert_from (S (length docs)) 0 docs coll.

End sharding.

(** ** Package operations: avgDuration *)
Module operations.

(** [avgDuration] on durations given as [int64] nanoseconds: the sum wraps
    around on overflow, and the division truncates toward zero. *)
Definition avgDuration (durations : list Z) : Z :=
  match durations with
  | [] => 0%Z
  | _ =>
      let total := fold_left (fun total d => sharding.wrap64 (total + d)) durations 0%Z in
      Z.quot total (Z.of_nat (length durations))
  end.

End operations.

(** ** Further notions for the properties *)
Module more.
Import GoString resolver.

(** The state the static resolver publishes for a target. *)
Definition static_state (target : Target) : State :=
  {| Addresses := map (fun h => {| Addr := h |})
                      (loadbalancer.entries (Endpoint target)) |}.

(** The addresses [Build] hands to the connection [cc] for a target: those
    of the states the connection has received in the call. *)
Definition published (target : Target) (cc : ClientConn) : list Address :=
  concat (map Addresses
            (drop (length (updates cc))
                  (updates (fst (loadbalancer.static_Build target cc))))).

(** *** [Builder.Build], a call through the interface *)

(** What a [Build] returns: a resolver of one of the three kinds. *)
Inductive Resolver :=
| StaticResolver (r : loadbalancer.staticResolver)
| PeriodicResolver (r : loadbalancer.PeriodicDNSResolver)
| LibraryResolver (scheme : string).

(** The error of a [Build]: one of the package, or one of the gRPC library,
    given by its text. *)
Inductive BuildError :=
| OwnError (e : loadbalancer.error)
| LibraryError (text : string).

Definition lift_static (r : ClientConn * (loadbalancer.error + loadbalancer.staticResolver))
    : ClientConn * (BuildError + Resolver) :=
  (fst r, match snd r with
          | inl e => inl (OwnError e)
          | inr r => inr (StaticResolver r)
          end).

Definition lift_periodic
    (r : ClientConn * (loadbalancer.error + loadbalancer.PeriodicDNSResolver))
    : ClientConn * (BuildError + Resolver) :=
  (fst r, match snd r with
          | inl e => inl (OwnError e)
          | inr r => inr (PeriodicResolver r)
          end).

Section Build.

(** The [Build] of a builder of the gRPC library, by its scheme: the
    connection after the call and the text of the error, if any. *)
Variable library_Build : string -> Target -> ClientConn -> ClientConn * option string.

(** [err.Error()] for the errors of the package. *)
Variable Error : loadbalancer.error -> string.

Definition error_text (e : BuildError) : string :=
  match e with
  | OwnError e => Error e
  | LibraryError text => text
  end.

(** [b.Build(target, cc, opts)] for a builder [b] behind the interface
    [resolver.Builder]. The periodic builder calls the [Build] of the
    builder it finds under [dns], whatever that builder is; [fuel] bounds
    the depth of these calls, and [None] says that it did not suffice. *)
Fixpoint Builder_Build (fuel : nat) (registry : gmap string Builder) (b : Builder)
    (target : Target) (cc : ClientConn)
    : option (ClientConn * (BuildError + Resolver)) :=
  match fuel with
  | O => None
  | S fuel' =>
      match b with
      | staticResolverBuilder =>
          Some (lift_static (loadbalancer.static_Build target cc))
      | libraryBuilder scheme =>
          let '(cc', err) := library_Build scheme target cc in
          Some (cc', match err with
                     | Some text => inl (LibraryError text)
                     | None => inr (LibraryResolver scheme)
                     end)
      | periodicDNSBuilder interval =>
          match Get "dns" registry with
          | None =>
              Some (lift_periodic
                      (loadbalancer.periodic_Build interval registry
                         (fun _ _ cc => (cc, None)) target cc))
          | Some dnsBuilder =>
              match Builder_Build fuel' registry dnsBuilder target cc with
              | None => None
              | Some (cc', res) =>
                  let err := match res with
                             | inl e => Some (error_text e)
                             | inr _ => None
                             end in
                  Some (lift_periodic
                          (loadbalancer.periodic_Build interval registry
                             (fun _ _ _ => (cc', err)) target cc))
              end
          end
      end
  end.

End Build.

(** The builder is a periodic DNS builder. *)
Definition is_periodic (b : Builder) : bool :=
  match b with
  | periodicDNSBuilder _ => true
  | _ => false
  end.

(** The service name a service config asks the health service about:
    the field [healthCheckConfig.serviceName]. *)
Definition health_service_of (config : string) : option json.json :=
  match json.Unmarshal config with
  | Some j =>
      match json.field "healthCheckConfig" j with
      | Some h => json.field "serviceName" h
      | None => None
      end
  | None => None
  end.

(** An ASCII byte that is not white space. *)
Definition graphic (b : N) : bool :=
  (b <? 0x80)%N && negb (strings.asciiSpace b).

(** An address as one writes it in a target: not empty, without a comma,
    its first and its last byte ASCII and not white space. *)
Definition clean (h : string) : bool :=
  match h with
  | EmptyString => false
  | _ =>
      negb (contains_byte ","%char h)
      && graphic (utf8.byte_at h 0)
      && graphic (utf8.byte_at h (String.length h - 1))
  end.

(** The number of occurrences of a byte. *)
Fixpoint count_byte (c : ascii) (s : string) : nat :=
  match s with
  | EmptyString => 0
  | String d t => (if Ascii.eqb d c then 1 else 0) + count_byte c t
  end.

(** How often an event occurs. *)
Definition count_event (e : loadbalancer.Event) (es : list loadbalancer.Event) : nat :=
  length (filter (fun x => x = e) es).

(** The first byte is an ASCII white-space character. *)
Definition starts_with_space (s : string) : bool :=
  match s with
  | String c _ => strings.asciiSpace (byte c)
  | EmptyString => false
  end.

(** The last byte is an ASCII white-space character. *)
Definition ends_with_space (s : string) : bool :=
  match String.length s with
  | S n => strings.asciiSpace (utf8.byte_at s n)
  | O => false
  end.

End more.

(** ** Auxiliary predicates *)
Module aux.
Import GoString utf8.

(** What [DecodeRuneInString] can return on a string that is not empty: an
    ASCII byte, an error of width 1 at a byte that is not ASCII, or a rune of
    width 2 to 4 none of whose bytes is ASCII. *)
Inductive decoded : string -> N * nat -> Prop :=
| decoded_ascii c t :
    (byte c < 0x80)%N -> decoded (String c t) (byte c, 1)
| decoded_error c t :
    (0x80 <= byte c)%N -> decoded (String c t) (RuneError, 1)
| decoded_2 c0 c1 t r :
    (0x80 <= byte c0)%N -> (0x80 <= byte c1)%N ->
    decoded (String c0 (String c1 t)) (r, 2)
| decoded_3 c0 c1 c2 t r :
    (0x80 <= byte c0)%N -> (0x80 <= byte c1)%N -> (0x80 <= byte c2)%N ->
    decoded (String c0 (String c1 (String c2 t))) (r, 3)
| decoded_4 c0 c1 c2 c3 t r :
    (0x80 <= byte c0)%N -> (0x80 <= byte c1)%N -> (0x80 <= byte c2)%N ->
    (0x80 <= byte c3)%N ->
    decoded (String c0 (String c1 (String c2 (String c3 t)))) (r, 4).

(** Every rune of the string, as [range] decodes it, is a space. *)
Inductive Blank : string -> Prop :=
| Blank_nil : Blank EmptyString
| Blank_rune c t r size :
    DecodeRuneInString (String c t) = (r, size) ->
    IsSpace r = true ->
    Blank (drop_bytes size (String c t)) ->
    Blank (String c t).

(** How many numbers of [seq s n] have the residue [j] modulo [k]. *)
Definition residues (k j s n : nat) : nat :=
  length (filter (fun i => i mod k = j) (seq s n)).

End aux.

(** ** Concrete inputs *)
Module examples.
Import resolver.

(** The target [static:///e]. *)
Definition endpoint_of (e : string) : Target :=
  {| URL_ := {| Scheme := "static"; Opaque := EmptyString; Path := "/" ++ e |} |}.

(** A connection that has received nothing yet and accepts every state. *)
Definition cc0 : ClientConn := {| updates := []; verdict := fun _ => None |}.

(** A periodic resolver watching [dns:///svc:50051], after its first
    [Close]. *)
Definition closed_resolver : loadbalancer.PeriodicDNSResolver :=
  {| loadbalancer.target := endpoint_of "svc:50051";
     loadbalancer.inner := [loadbalancer.InnerClose];
     loadbalancer.interval := loadbalancer.defaultReResolveInterval;
     loadbalancer.done := loadbalancer.chan_closed;
     loadbalancer.once := true;
     loadbalancer.loop := loadbalancer.Running |}.

Definition a1 : Address := {| Addr := "10.0.0.1:50051" |}.
Definition a2 : Address := {| Addr := "10.0.0.2:50051" |}.
Definition a3 : Address := {| Addr := "10.0.0.3:50051" |}.

(** Three healthy addresses. *)
Definition three_healthy : roundrobin.Policy :=
  {| roundrobin.addresses := [a1; a2; a3];
     roundrobin.health_of := fun _ => health.SERVING;
     roundrobin.cursor := 0 |}.

(** Three addresses, the third one marked NOT_SERVING. *)
Definition one_down : roundrobin.Policy :=
  {| roundrobin.addresses := [a1; a2; a3];
     roundrobin.health_of :=
       fun a => if decide (a = a3) then health.NOT_SERVING else health.SERVING;
     roundrobin.cursor := 0 |}.

(** A connection that rejects every state. *)
Definition cc_reject : ClientConn :=
  {| updates := []; verdict := fun _ => Some "bad resolver state" |}.

End examples.

(** * Properties *)

Import GoString resolver examples.

(** ** Splitting and trimming *)

Lemma Split_nonempty s c : Split s c <> [].
Proof. induction s as [|a s IH]; simpl; [done|]. destruct (Ascii.eqb a c); [done|]. by destruct (Split s c). Qed.

(** Joining the pieces with the separator gives the string back. *)
Lemma Join_Split s c : Join (Split s c) (String c EmptyString) = s.
Proof.
  induction s as [|a s IH]; simpl; [done|].
  destruct (Ascii.eqb_spec a c) as [->|Hne].
  - destruct (Split s c) as [|p ps] eqn:E; [by destruct (Split_nonempty s c)|].
    simpl. by rewrite <- IH.
  - destruct (Split s c) as [|p ps] eqn:E; [by destruct (Split_nonempty s c)|].
    rewrite <- IH. by destruct ps.
Qed.

(** No piece contains the separator. *)
Lemma Split_no_sep s c : Forall (fun p => contains_byte c p = false) (Split s c).
Proof.
  induction s as [|a s IH]; simpl; [by constructor|].
  destruct (Ascii.eqb_spec a c) as [->|Hne].
  - by constructor.
  - destruct (Split s c) as [|p ps].
    + constructor; [|done]. simpl. rewrite orb_false_r. by apply Ascii.eqb_neq.
    + inversion IH; subst. constructor; [|done]. simpl.
      apply orb_false_iff; split; [by apply Ascii.eqb_neq|done].
Qed.

Lemma Split_without_sep s c : contains_byte c s = false -> Split s c = [s].
Proof.
  induction s as [|a s IH]; simpl; [done|].
  intros [Ha Hs]%orb_false_iff. rewrite Ha, (IH Hs). done.
Qed.

Lemma TrimSpace_empty : strings.TrimSpace EmptyString = EmptyString.
Proof. reflexivity. Qed.

(** ** The static resolver *)

(** The loop of [Build] appends one address per entry. *)
Lemma fold_add_host hosts acc :
  fold_left loadbalancer.add_host hosts acc
  = (acc ++ map (fun h => {| Addr := h |})
              (filter (fun h => h <> EmptyString) (map strings.TrimSpace hosts)))%list.
Proof.
  revert acc. induction hosts as [|h hosts IH]; intros acc; simpl.
  - by rewrite app_nil_r.
  - rewrite IH. unfold loadbalancer.add_host.
    destruct (String.eqb_spec (strings.TrimSpace h) EmptyString) as [E|E].
    + rewrite filter_cons_False; [done|]. intros H. by apply H.
    + rewrite filter_cons_True by done. simpl. by rewrite <- app_assoc.
Qed.

Lemma entries_empty_endpoint : loadbalancer.entries EmptyString = [].
Proof. reflexivity. Qed.

(** What [Build] does on an endpoint with at least one entry. *)
Lemma static_Build_valid target cc :
  loadbalancer.entries (Endpoint target) <> [] ->
  loadbalancer.static_Build target cc
  = let st := {| Addresses := map (fun h => {| Addr := h |})
                                 (loadbalancer.entries (Endpoint target)) |} in
    (fst (UpdateState cc st),
     match verdict cc st with
     | Some e => inl (loadbalancer.ErrUpdateState e)
     | None => inr loadbalancer.mk_staticResolver
     end).
Proof.
  intros Hne. unfold loadbalancer.static_Build.
  destruct (String.eqb_spec (Endpoint target) EmptyString) as [E|E].
  { rewrite E in Hne. by destruct Hne. }
  rewrite fold_add_host. simpl.
  fold (loadbalancer.entries (Endpoint target)).
  destruct (loadbalancer.entries (Endpoint target)) as [|e es]; [done|].
  simpl. by destruct (verdict cc _).
Qed.

(** What [Build] does on an endpoint without entry. *)
Lemma static_Build_invalid target cc :
  loadbalancer.entries (Endpoint target) = [] ->
  loadbalancer.static_Build target cc
  = (cc, inl (if String.eqb (Endpoint target) EmptyString
              then loadbalancer.ErrEmptyEndpoint target
              else loadbalancer.ErrNoValidAddresses (Endpoint target))).
Proof.
  intros Hnil. unfold loadbalancer.static_Build.
  destruct (String.eqb (Endpoint target) EmptyString); [done|].
  rewrite fold_add_host. simpl.
  fold (loadbalancer.entries (Endpoint target)). by rewrite Hnil.
Qed.

(** C1: for an endpoint with at least one non-empty trimmed entry, [Build]
    hands the connection exactly one state, whose addresses are the non-empty
    trimmed entries of the endpoint, one address per entry, in input order
    (nothing dropped, equal entries kept apart). *)
Theorem static_Build_one_address_per_entry target cc :
  loadbalancer.entries (Endpoint target) <> [] ->
  exists st,
    updates (fst (loadbalancer.static_Build target cc)) = (updates cc ++ [st])%list
    /\ map Addr (Addresses st) = loadbalancer.entries (Endpoint target)
    /\ length (Addresses st) = length (loadbalancer.entries (Endpoint target))
    /\ (forall i h, loadbalancer.entries (Endpoint target) !! i = Some h ->
                    Addresses st !! i = Some {| Addr := h |}).
Proof.
  intros Hne. rewrite (static_Build_valid _ _ Hne). cbn zeta.
  eexists. split; [reflexivity|]. cbn [Addresses].
  split; [|split].
  - rewrite map_map. cbn. apply map_id.
  - by rewrite length_map.
  - intros i h Hi. rewrite list_lookup_fmap, Hi. done.
Qed.

Lemma static_Build_one_address_per_entry_witness :
  exists st,
    updates (fst (loadbalancer.static_Build
                    (endpoint_of " localhost:50051, localhost:50052,,localhost:50051 ") cc0))
      = (updates cc0 ++ [st])%list
    /\ map Addr (Addresses st)
       = ["localhost:50051"; "localhost:50052"; "localhost:50051"].
Proof.
  destruct (static_Build_one_address_per_entry
              (endpoint_of " localhost:50051, localhost:50052,,localhost:50051 ") cc0)
    as (st & H1 & H2 & _).
  - vm_compute. discriminate.
  - exists st. split; [exact H1|]. rewrite H2. vm_compute. reflexivity.
Defined.

(** ** Decoding runes *)

Import utf8 aux.

Lemma first_cases b :
  ((b < 0x80)%N /\ first b = as_)
  \/ ((0x80 <= b)%N
      /\ (first b = xx \/ first b = s1 \/ first b = s2 \/ first b = s3
          \/ first b = s4 \/ first b = s5 \/ first b = s6 \/ first b = s7)).
Proof.
  unfold first.
  repeat match goal with
  | |- context [N.ltb ?a ?b] => destruct (N.ltb_spec a b)
  | |- context [N.eqb ?a ?b] => destruct (N.eqb_spec a b)
  end; try (left; split; [lia|reflexivity]); right; (split; [lia|]); tauto.
Qed.

(** Evaluate the tests between constants. *)
Ltac eval_ground :=
  repeat match goal with
  | |- context [N.leb ?a ?b] =>
      let v := eval vm_compute in (N.leb a b) in
      match v with
      | true => change (N.leb a b) with true
      | false => change (N.leb a b) with false
      end
  | |- context [N.ltb ?a ?b] =>
      let v := eval vm_compute in (N.ltb a b) in
      match v with
      | true => change (N.ltb a b) with true
      | false => change (N.ltb a b) with false
      end
  | |- context [N.testbit ?a ?b] =>
      let v := eval vm_compute in (N.testbit a b) in
      match v with
      | true => change (N.testbit a b) with true
      | false => change (N.testbit a b) with false
      end
  end; cbn [orb andb fst snd].

Ltac decode_step :=
  match goal with
  | |- context [match ?s with EmptyString => _ | String _ _ => _ end] =>
      is_var s; destruct s
  | |- context [N.ltb ?a ?b] => destruct (N.ltb_spec a b)
  | |- context [N.leb ?a ?b] => destruct (N.leb_spec a b)
  end; cbn [orb andb fst snd].

Lemma decode_decoded c t : decoded (String c t) (DecodeRuneInString (String c t)).
Proof.
  unfold DecodeRuneInString.
  destruct (first_cases (byte c)) as [[Hb ->]|[Hb Hx]].
  - cbn. by constructor.
  - destruct Hx as [->|[->|[->|[->|[->|[->|[->| ->]]]]]]];
      cbv [acceptRanges N.shiftr N.land xx s1 s2 s3 s4 s5 s6 s7 as_ locb hicb
           Pos.land Pos.shiftr Pos.iter Pos.div2 N.div2 N.succ_double N.double
           Pos.Ndouble Pos.Nsucc_double];
      eval_ground; try (by constructor);
      repeat (decode_step; eval_ground); try (constructor; lia).
Qed.

Lemma decode_size c t :
  (1 <= snd (DecodeRuneInString (String c t)) <= String.length (String c t))%nat.
Proof.
  pose proof (decode_decoded c t) as H.
  destruct (DecodeRuneInString (String c t)) as [r size].
  inversion H; subst; cbn; lia.
Qed.

Lemma drop_bytes_length n s : String.length (drop_bytes n s) = (String.length s - n)%nat.
Proof.
  revert s. induction n as [|n IH]; intros [|c s]; cbn; try done.
Qed.

(** ** White space *)

Lemma comma_not_space c :
  IsSpace (byte c) = true -> Ascii.eqb c ","%char = false.
Proof.
  intros H. destruct (Ascii.eqb_spec c ","%char) as [->|]; [|done].
  vm_compute in H. discriminate.
Qed.

Lemma high_not_comma c : (0x80 <= byte c)%N -> Ascii.eqb c ","%char = false.
Proof.
  intros H. destruct (Ascii.eqb_spec c ","%char) as [->|]; [|done].
  vm_compute in H. by destruct H.
Qed.

Lemma space_rune_no_comma c t r size :
  DecodeRuneInString (String c t) = (r, size) ->
  IsSpace r = true ->
  contains_byte ","%char (String c t)
  = contains_byte ","%char (drop_bytes size (String c t)).
Proof.
  intros E Hsp. pose proof (decode_decoded c t) as H. rewrite E in H.
  inversion H; subst; cbn [contains_byte drop_bytes];
    rewrite ?high_not_comma by done; try done.
  by rewrite comma_not_space.
Qed.

Lemma Blank_no_comma s : Blank s -> contains_byte ","%char s = false.
Proof.
  induction 1 as [|c t r size E Hsp _ IH]; [done|].
  by rewrite (space_rune_no_comma _ _ _ _ E Hsp).
Qed.

Lemma Blank_indexFunc s :
  Blank s -> forall fuel i, strings.indexFunc_from fuel s i IsSpace false = None.
Proof.
  induction 1 as [|c t r size E Hsp _ IH]; intros [|fuel] i; try done.
  cbn [strings.indexFunc_from]. rewrite E, Hsp. cbn. apply IH.
Qed.

Lemma indexFunc_Blank fuel : forall s i,
  (String.length s <= fuel)%nat ->
  strings.indexFunc_from fuel s i IsSpace false = None -> Blank s.
Proof.
  induction fuel as [|fuel IH]; intros [|c t] i Hlen H; try constructor.
  - cbn in Hlen. lia.
  - cbn [strings.indexFunc_from] in H.
    destruct (DecodeRuneInString (String c t)) as [r size] eqn:E.
    pose proof (decode_size c t) as Hsz. rewrite E in Hsz. cbn [snd] in Hsz.
    destruct (IsSpace r) eqn:Hsp; [|done]. cbn in H.
    econstructor; [exact E|exact Hsp|].
    apply (IH _ (i + size)%nat); [|done].
    rewrite drop_bytes_length. cbn [String.length] in *. lia.
Qed.

Lemma blank_Blank s : loadbalancer.blank s <-> Blank s.
Proof.
  split.
  - by apply indexFunc_Blank.
  - intros H. by apply Blank_indexFunc.
Qed.

Lemma substring_0 s n : substring n 0 s = EmptyString.
Proof. revert n. induction s as [|c s IH]; intros [|n]; cbn; try done. Qed.

Lemma slice_empty s n : slice s n n = EmptyString.
Proof. unfold slice. rewrite Nat.sub_diag. apply substring_0. Qed.

Lemma ascii_space c :
  (byte c < 0x80)%N -> IsSpace (byte c) = true -> strings.asciiSpace (byte c) = true.
Proof.
  unfold IsSpace, strings.asciiSpace. intros Hlt.
  destruct (N.leb_spec (byte c) 255); [|lia].
  destruct (N.eqb_spec (byte c) 133); [lia|].
  destruct (N.eqb_spec (byte c) 160); [lia|].
  by rewrite !orb_false_r.
Qed.

(** The first loop of [TrimSpace] on a blank string runs to the end, or
    stops at a non-ASCII byte with a blank rest. *)
Lemma scanStart_Blank s : forall start,
  Blank s ->
  match strings.scanStart s start with
  | strings.Done i => i = (start + String.length s)%nat
  | strings.Slow i => exists k, i = (start + k)%nat /\ Blank (drop_bytes k s)
  end.
Proof.
  induction s as [|c t IH]; intros start HB; cbn [strings.scanStart].
  - cbn. lia.
  - destruct (N.leb_spec RuneSelf (byte c)) as [Hhi|Hlo].
    + exists 0%nat. split; [lia|done].
    + inversion HB as [|? ? r size E Hsp HB']; subst.
      pose proof (decode_decoded c t) as Hd. rewrite E in Hd.
      unfold RuneSelf in Hlo.
      inversion Hd; subst; try lia.
      rewrite (ascii_space c) by done.
      specialize (IH (S start) HB').
      destruct (strings.scanStart t (S start)) as [i|i].
      * cbn [String.length]. lia.
      * destruct IH as (k & -> & Hk). exists (S k). split; [lia|done].
Qed.

(** A blank string is trimmed to the empty string. *)
Lemma Blank_TrimSpace s : Blank s -> strings.TrimSpace s = EmptyString.
Proof.
  intros HB. unfold strings.TrimSpace.
  pose proof (scanStart_Blank s 0 HB) as H.
  destruct (strings.scanStart s 0) as [i|i].
  - cbn in H. subst i. rewrite Nat.sub_diag. cbn [strings.scanStop].
    apply slice_empty.
  - destruct H as (k & -> & Hk). cbn [Nat.add].
    unfold strings.TrimFunc, strings.TrimLeftFunc, strings.indexFunc.
    rewrite Blank_indexFunc by done. reflexivity.
Qed.

Lemma Blank_entries s : Blank s -> loadbalancer.entries s = [].
Proof.
  intros HB. unfold loadbalancer.entries.
  rewrite (Split_without_sep _ _ (Blank_no_comma _ HB)). cbn [map].
  rewrite (Blank_TrimSpace _ HB). reflexivity.
Qed.

(** C2: [Build] fails with one of the two errors for an invalid target
    exactly when the endpoint is empty, or white space only, or leaves no
    entry after splitting at the commas and trimming; and when it fails so,
    the connection has received no state. *)
Theorem static_Build_InvalidTarget_iff target cc :
  ((exists e, snd (loadbalancer.static_Build target cc) = inl e
              /\ loadbalancer.InvalidTarget e)
   <-> (Endpoint target = EmptyString
        \/ loadbalancer.blank (Endpoint target)
        \/ loadbalancer.entries (Endpoint target) = []))
  /\ (forall e, snd (loadbalancer.static_Build target cc) = inl e ->
                loadbalancer.InvalidTarget e ->
                fst (loadbalancer.static_Build target cc) = cc).
Proof.
  assert (Hempty : Endpoint target = EmptyString
                   \/ loadbalancer.blank (Endpoint target)
                   \/ loadbalancer.entries (Endpoint target) = []
                   -> loadbalancer.entries (Endpoint target) = []).
  { intros [->|[HB|H]]; [reflexivity| |exact H].
    apply Blank_entries. by apply blank_Blank. }
  destruct (decide (loadbalancer.entries (Endpoint target) = [])) as [Hnil|Hne].
  - rewrite (static_Build_invalid _ _ Hnil). cbn [fst snd]. split; [|done].
    split; [tauto|]. intros _. eexists. split; [reflexivity|].
    by destruct (String.eqb (Endpoint target) EmptyString).
  - rewrite (static_Build_valid _ _ Hne). cbn zeta. cbn [fst snd]. split.
    + split; [|tauto]. intros (e & He & Hinv).
      destruct (verdict cc _); [|done]. injection He as <-. destruct Hinv.
    + intros e He Hinv. destruct (verdict cc _); [|done].
      injection He as <-. destruct Hinv.
Qed.

Lemma static_Build_InvalidTarget_iff_witness :
  loadbalancer.blank "  "
  /\ (exists e, snd (loadbalancer.static_Build (endpoint_of "  ") cc0) = inl e
                /\ loadbalancer.InvalidTarget e)
  /\ fst (loadbalancer.static_Build (endpoint_of "  ") cc0) = cc0.
Proof.
  destruct (static_Build_InvalidTarget_iff (endpoint_of "  ") cc0) as [Hiff Hcc].
  assert (Hb : loadbalancer.blank "  ") by reflexivity.
  destruct (proj2 Hiff (or_intror (or_introl Hb))) as (e & He & Hinv).
  split; [exact Hb|]. split; [by exists e|]. by apply (Hcc e).
Defined.

(** The two endpoints the spec names: the empty one and two blanks. *)
Example static_Build_empty_endpoint :
  loadbalancer.static_Build (endpoint_of "") cc0
  = (cc0, inl (loadbalancer.ErrEmptyEndpoint (endpoint_of ""))).
Proof. reflexivity. Qed.

Example static_Build_blank_endpoint :
  loadbalancer.static_Build (endpoint_of "  ") cc0
  = (cc0, inl (loadbalancer.ErrNoValidAddresses "  ")).
Proof. reflexivity. Qed.

(** C9: for a valid endpoint, [Build] hands the connection its address set
    exactly once, during the call; afterwards [ResolveNow] and [Close] on the
    resolver returned do nothing: the states the connection has received stay
    the same whatever calls follow. *)
Theorem static_publishes_once target cc :
  loadbalancer.entries (Endpoint target) <> [] ->
  (exists st,
      updates (fst (loadbalancer.static_Build target cc)) = (updates cc ++ [st])%list
      /\ map Addr (Addresses st) = loadbalancer.entries (Endpoint target))
  /\ length (updates (fst (loadbalancer.static_Build target cc)))
     = S (length (updates cc))
  /\ (forall r calls,
        snd (loadbalancer.static_Build target cc) = inr r ->
        fold_left (loadbalancer.static_do r) calls
                  (fst (loadbalancer.static_Build target cc))
        = fst (loadbalancer.static_Build target cc)).
Proof.
  intros Hne. rewrite (static_Build_valid _ _ Hne). cbn zeta. cbn [fst snd].
  split; [|split].
  - eexists. split; [reflexivity|]. cbn [Addresses].
    rewrite map_map. apply map_id.
  - cbn. rewrite length_app. cbn. lia.
  - intros r calls _. induction calls as [|c calls IH]; [done|].
    destruct c; exact IH.
Qed.

Lemma static_publishes_once_witness :
  length (updates (fst (loadbalancer.static_Build
                          (endpoint_of "localhost:50051,localhost:50052") cc0))) = 1%nat
  /\ fold_left (loadbalancer.static_do loadbalancer.mk_staticResolver)
       [loadbalancer.StaticResolveNow; loadbalancer.StaticClose;
        loadbalancer.StaticResolveNow]
       (fst (loadbalancer.static_Build
               (endpoint_of "localhost:50051,localhost:50052") cc0))
     = fst (loadbalancer.static_Build
              (endpoint_of "localhost:50051,localhost:50052") cc0).
Proof.
  destruct (static_publishes_once
              (endpoint_of "localhost:50051,localhost:50052") cc0)
    as (_ & H1 & H2).
  - vm_compute. discriminate.
  - split; [exact H1|]. apply H2. vm_compute. reflexivity.
Defined.

(** ** The periodic DNS resolver *)

Import loadbalancer.

Lemma count_calls_app c l1 l2 :
  count_calls c (l1 ++ l2) = (count_calls c l1 + count_calls c l2)%nat.
Proof. unfold count_calls. by rewrite filter_app, length_app. Qed.

Lemma count_calls_snoc c l d :
  count_calls c (l ++ [d])
  = (count_calls c l + if decide (d = c) then 1 else 0)%nat.
Proof. rewrite count_calls_app. unfold count_calls at 2. cbn. by destruct (decide (d = c)). Qed.

Lemma started_inv target interval : once_inv (started target interval).
Proof. by split. Qed.

Lemma step_inv e r :
  once_inv r -> exists r', step e r = Ok r' /\ once_inv r'.
Proof.
  unfold once_inv. destruct r as [tg inn iv dn on lp].
  destruct e, on, lp, dn; cbn -[count_calls]; intros [Hd Hc]; try discriminate Hd;
    (eexists; split; [reflexivity|]); cbn -[count_calls];
    rewrite ?count_calls_snoc; (split; [done|]); repeat case_decide;
    try done; lia.
Qed.

Lemma run_inv es : forall r,
  once_inv r -> exists r', run es r = Ok r' /\ once_inv r'.
Proof.
  induction es as [|e es IH]; intros r Hr; cbn.
  - by exists r.
  - destruct (step_inv e r Hr) as (r1 & -> & H1). by apply IH.
Qed.

Lemma run_app es1 es2 r :
  run (es1 ++ es2) r
  = match run es1 r with Ok r' => run es2 r' | Panic => Panic end.
Proof.
  revert r. induction es1 as [|e es1 IH]; intros r; cbn; [done|].
  destruct (step e r); [apply IH|done].
Qed.

Lemma step_once e r r' : step e r = Ok r' -> once r = true -> once r' = true.
Proof.
  destruct r as [tg inn iv dn on lp]. cbn. intros H ->. revert H.
  destruct e, lp, dn; cbn; intros [= <-]; done.
Qed.

Lemma run_once es : forall r r', run es r = Ok r' -> once r = true -> once r' = true.
Proof.
  induction es as [|e es IH]; intros r r'; cbn.
  - by intros [= <-].
  - destruct (step e r) as [r1|] eqn:E; [|done].
    intros H Ho. apply (IH _ _ H). by apply (step_once _ _ _ E).
Qed.


(** After [Close], a call of [ResolveNow] reaches the inner resolver. *)
Lemma ResolveNow_after_Close_reaches_inner :
  run [CallClose] (started (endpoint_of "svc:50051") defaultReResolveInterval)
  = Ok closed_resolver
  /\ Closed closed_resolver
  /\ exists r',
       step CallResolveNow closed_resolver = Ok r'
       /\ inner r' = [InnerClose; InnerResolveNow]
       /\ count_calls InnerResolveNow (inner r') = 1%nat
       /\ count_calls InnerResolveNow (inner closed_resolver) = 0%nat.
Proof. split; [reflexivity|]. split; [reflexivity|]. eexists. repeat split. Qed.

(** C6 as stated fails: a closed resolver and a [ResolveNow] call after
    which the inner resolver has received one more [ResolveNow]. *)
Lemma ResolveNow_after_Close_not_noop :
  ~ (forall r e r',
       Closed r -> e = TimerTick \/ e = CallResolveNow ->
       step e r = Ok r' ->
       count_calls InnerResolveNow (inner r')
       = count_calls InnerResolveNow (inner r)).
Proof.
  intros H.
  destruct ResolveNow_after_Close_reaches_inner as (_ & Hc & r' & Hs & _ & H1 & H0).
  specialize (H closed_resolver CallResolveNow r' Hc (or_intror eq_refl) Hs).
  congruence.
Qed.

Lemma step_Returned e r r' :
  loop r = Returned -> step e r = Ok r' ->
  loop r' = Returned
  /\ count_calls InnerResolveNow (inner r')
     = (count_calls InnerResolveNow (inner r) + count_ResolveNow [e])%nat.
Proof.
  destruct r as [tg inn iv dn on lp]; cbn. intros ->.
  destruct e, on, dn; cbn -[count_calls]; try discriminate; intros [= <-];
    cbn -[count_calls]; rewrite ?count_calls_snoc; (split; [done|]);
    unfold count_ResolveNow; cbn; repeat case_decide; try done; lia.
Qed.

Lemma run_Returned es : forall r r',
  loop r = Returned -> run es r = Ok r' ->
  count_calls InnerResolveNow (inner r')
  = (count_calls InnerResolveNow (inner r) + count_ResolveNow es)%nat.
Proof.
  induction es as [|e es IH]; intros r r' Hl; cbn [run].
  - intros [= <-]. unfold count_ResolveNow. cbn. lia.
  - destruct (step e r) as [r1|] eqn:E; [|done]. intros Hrun.
    destruct (step_Returned _ _ _ Hl E) as [Hl1 Hc1].
    rewrite (IH _ _ Hl1 Hrun), Hc1.
    assert (Hcons : count_ResolveNow (e :: es)
                    = (count_ResolveNow [e] + count_ResolveNow es)%nat).
    { unfold count_ResolveNow. rewrite filter_cons. cbn.
      case_decide; cbn; lia. }
    lia.
Qed.

(** C6, amended: once the resolver is closed and its refresh loop has
    received the close signal, timer ticks no longer reach the inner
    resolver, but every call of [ResolveNow] is still forwarded, once: the
    inner resolver receives as many [ResolveNow] as there are such calls. *)
Theorem closed_resolver_forwards_ResolveNow r es r' :
  Closed r ->
  run (DoneSeen :: es) r = Ok r' ->
  count_calls InnerResolveNow (inner r')
  = (count_calls InnerResolveNow (inner r) + count_ResolveNow es)%nat.
Proof.
  unfold Closed. intros Hc. cbn [run step].
  intros Hrun.
  assert (Hl : loop (refreshLoop_round case_done r) = Returned).
  { unfold refreshLoop_round. destruct (loop r) eqn:El; [|done]. by rewrite Hc. }
  rewrite (run_Returned _ _ _ Hl Hrun). f_equal.
  unfold refreshLoop_round. destruct (loop r); [|done]. by rewrite Hc.
Qed.

Lemma closed_resolver_forwards_ResolveNow_witness :
  run [CallClose] (started (endpoint_of "svc:50051") defaultReResolveInterval)
  = Ok closed_resolver
  /\ Closed closed_resolver
  /\ exists r',
       run [DoneSeen; TimerTick; CallResolveNow; TimerTick; CallResolveNow; CallClose]
           closed_resolver = Ok r'
       /\ count_calls InnerResolveNow (inner r') = 2%nat.
Proof.
  split; [reflexivity|]. split; [reflexivity|].
  eexists. split; [reflexivity|].
  rewrite (closed_resolver_forwards_ResolveNow closed_resolver
             [TimerTick; CallResolveNow; TimerTick; CallResolveNow; CallClose] _
             (eq_refl : Closed closed_resolver) eq_refl).
  reflexivity.
Defined.

(** ** Registration and dialing *)

(** [RegisterResolvers] binds [static] and leaves every other scheme as
    it was. *)
Lemma RegisterResolvers_static registry :
  Get "static" (RegisterResolvers registry) = Some staticResolverBuilder.
Proof. unfold Get, RegisterResolvers, Register. apply lookup_insert_eq. Qed.

Lemma RegisterResolvers_other registry scheme :
  scheme <> "static" ->
  Get scheme (RegisterResolvers registry) = Get scheme registry.
Proof.
  intros Hne. unfold Get, RegisterResolvers, Register. cbn [Builder_Scheme].
  by rewrite lookup_insert_ne.
Qed.

(** C3, on the code: dialing a [dns] target registers the static builder
    only, and the connection is given the DNS builder of the gRPC library;
    no [periodicDNSBuilder], with the default interval or any other, is in
    the registry or in the connection. *)
Theorem dns_target_gets_library_resolver :
  exists conn,
    NewClientConn url.Parse builtin
      "dns:///grpc-server-headless.sharding-poc.svc.cluster.local:50051"
    = (RegisterResolvers builtin, inr conn)
    /\ grpc.resolverBuilder conn = libraryBuilder "dns"
    /\ Get "dns" (RegisterResolvers builtin) = Some (libraryBuilder "dns")
    /\ (forall interval,
          grpc.resolverBuilder conn <> periodicDNSBuilder interval)
    /\ defaultReResolveInterval = (30 * 1000000000)%Z.
Proof.
  eexists. split; [vm_compute; reflexivity|]. cbn [grpc.resolverBuilder].
  repeat split; done.
Qed.

(** C7 as stated fails: no resolver is registered for the scheme [bogus],
    and dialing a target of that scheme returns a connection. *)
Lemma NewClientConn_bogus_scheme_succeeds :
  Get "bogus" (RegisterResolvers builtin) = None
  /\ exists conn,
       NewClientConn url.Parse builtin "bogus:///localhost:50051"
       = (RegisterResolvers builtin, inr conn)
       /\ grpc.resolverBuilder conn = libraryBuilder "dns"
       /\ Endpoint (grpc.parsedTarget conn) = "bogus:///localhost:50051".
Proof.
  split; [vm_compute; reflexivity|].
  eexists. split; [vm_compute; reflexivity|]. split; reflexivity.
Qed.

(** C7, amended: when the scheme of the target has no registered resolver,
    [NewClientConn] reads the target again under the default scheme, as
    [dns:///target]; it returns a connection using the resolver of that
    scheme, and fails only if the target so read does not parse or its
    scheme has no resolver either. *)
Theorem NewClientConn_unregistered_scheme url_Parse registry target u :
  url_Parse target = Some u ->
  Get (Scheme u) (RegisterResolvers registry) = None ->
  snd (NewClientConn url_Parse registry target)
  = match url_Parse ("dns:///" ++ target) with
    | None => inl (ErrGrpcDial target grpc.ErrParseTarget)
    | Some u' =>
        match Get (Scheme u') (RegisterResolvers registry) with
        | None => inl (ErrGrpcDial target (grpc.ErrNoDefaultResolver (Scheme u')))
        | Some rb =>
            inr {| grpc.target := target;
                   grpc.parsedTarget := {| URL_ := u' |};
                   grpc.resolverBuilder := rb;
                   grpc.dopts := DialOptions "sharding.v1.ShardingService" |}
        end
    end.
Proof.
  intros Hp Hg. unfold NewClientConn, grpc.NewClient, grpc.parseTarget.
  rewrite Hp. cbn [URL_]. rewrite Hg.
  unfold grpc.withDefaultScheme, grpc.parseTarget, grpc.defaultScheme.
  change ("dns" ++ ":///" ++ target) with ("dns:///" ++ target).
  destruct (url_Parse ("dns:///" ++ target)) as [u'|]; [|done].
  cbn [URL_]. by destruct (Get (Scheme u') (RegisterResolvers registry)).
Qed.

Lemma NewClientConn_unregistered_scheme_witness :
  exists conn,
    snd (NewClientConn url.Parse builtin "bogus:///localhost:50051") = inr conn
    /\ grpc.resolverBuilder conn = libraryBuilder "dns".
Proof.
  eexists.
  rewrite (NewClientConn_unregistered_scheme url.Parse builtin
             "bogus:///localhost:50051"
             {| Scheme := "bogus"; Opaque := EmptyString;
                Path := "/localhost:50051" |}).
  - vm_compute. split; reflexivity.
  - vm_compute. reflexivity.
  - vm_compute. reflexivity.
Defined.

(** ** The health service *)

Lemma GetServingStatus_set service status s :
  health.GetServingStatus service (health.SetServingStatus service status s) = status.
Proof.
  unfold health.GetServingStatus, health.SetServingStatus. cbn.
  by rewrite lookup_insert_eq.
Qed.

Lemma GetServingStatus_set_other service service' status s :
  service <> service' ->
  health.GetServingStatus service' (health.SetServingStatus service status s)
  = health.GetServingStatus service' s.
Proof.
  intros Hne. unfold health.GetServingStatus, health.SetServingStatus. cbn.
  by rewrite lookup_insert_ne.
Qed.

(** C8: after [RegisterHealthServer] the health service is registered on
    the server, and the status of the empty service name and of
    [sharding.v1.ShardingService] both read SERVING. *)
Theorem RegisterHealthServer_SERVING server :
  health.GetServingStatus "" (snd (RegisterHealthServer server)) = health.SERVING
  /\ health.GetServingStatus "sharding.v1.ShardingService"
       (snd (RegisterHealthServer server)) = health.SERVING
  /\ In "grpc.health.v1.Health" (grpc.services (fst (RegisterHealthServer server))).
Proof.
  unfold RegisterHealthServer. cbn [fst snd]. split; [|split].
  - rewrite GetServingStatus_set_other by done. apply GetServingStatus_set.
  - apply GetServingStatus_set.
  - cbn. apply in_or_app. right. by left.
Qed.

(** ** The round-robin policy *)

Import roundrobin.

Lemma residues_app k j s n1 n2 :
  residues k j s (n1 + n2) = (residues k j s n1 + residues k j (s + n1) n2)%nat.
Proof. unfold residues. by rewrite seq_app, filter_app, length_app. Qed.

Lemma residues_1 k j s :
  residues k j s 1 = if decide (s mod k = j) then 1%nat else 0%nat.
Proof. unfold residues. cbn [seq]. rewrite filter_cons, filter_nil. by case_decide. Qed.

Lemma residues_prefix k j n :
  (n <= k)%nat ->
  residues k j 0 n = if decide (j < n)%nat then 1%nat else 0%nat.
Proof.
  induction n as [|n IH]; intros Hn.
  - by case_decide; [lia|].
  - replace (S n) with (n + 1)%nat by lia.
    rewrite residues_app, residues_1, IH by lia. cbn [Nat.add].
    rewrite Nat.mod_small by lia. repeat case_decide; lia.
Qed.

Lemma residues_base k j : (j < k)%nat -> residues k j 0 k = 1%nat.
Proof. intros Hj. rewrite residues_prefix by lia. by rewrite decide_True. Qed.

(** Every window of [k] consecutive numbers has each residue once. *)
Lemma residues_period k j s : (j < k)%nat -> residues k j s k = 1%nat.
Proof.
  intros Hj. induction s as [|s IH]; [by apply residues_base|].
  assert (H1 : residues k j s (1 + k) = residues k j s (k + 1)) by (f_equal; lia).
  rewrite !residues_app, !residues_1 in H1.
  replace ((s + k) mod k) with (s mod k) in H1.
  2:{ rewrite <- (Nat.Div0.add_mod_idemp_r s k k), Nat.Div0.mod_same, Nat.add_0_r. done. }
  replace (s + 1)%nat with (S s) in H1 by lia. lia.
Qed.

Lemma residues_periods k j q : forall s,
  (j < k)%nat -> residues k j s (q * k) = q.
Proof.
  induction q as [|q IH]; intros s Hj; [done|].
  cbn [Nat.mul]. rewrite residues_app, residues_period, IH by done. lia.
Qed.

Lemma residues_short k j s r :
  (j < k)%nat -> (r <= k)%nat -> (residues k j s r <= 1)%nat.
Proof.
  intros Hj Hr. pose proof (residues_period k j s Hj) as H.
  replace k with (r + (k - r))%nat in H at 2 by lia.
  rewrite residues_app in H. lia.
Qed.

(** In a window of [m] numbers every residue occurs [m / k] times or once
    more. *)
Lemma residues_window k j s m :
  (j < k)%nat ->
  (m / k <= residues k j s m <= m / k + 1)%nat
  /\ (m mod k = 0 -> residues k j s m = m / k)%nat.
Proof.
  intros Hj.
  pose proof (Nat.div_mod_eq m k) as Hm.
  assert (Hr : (m mod k < k)%nat) by (apply Nat.mod_upper_bound; lia).
  assert (Hres : residues k j s m
                 = (m / k + residues k j (s + m / k * k) (m mod k))%nat).
  { rewrite Hm at 1.
    by rewrite (Nat.mul_comm k), residues_app, residues_periods. }
  rewrite Hres.
  pose proof (residues_short k j (s + m / k * k) (m mod k) Hj ltac:(lia)).
  split; [lia|]. intros H0. rewrite H0. unfold residues. cbn. lia.
Qed.

Lemma dispatch_live p : live (fst (dispatch p)) = live p.
Proof. unfold dispatch. destruct (live p) eqn:E; cbn [fst]; [exact E|]. exact E. Qed.

Lemma dispatch_nonempty p a0 l :
  live p = a0 :: l ->
  dispatch p
  = ({| addresses := addresses p; health_of := health_of p;
        cursor := (cursor p + 1) mod length (live p) |},
     inr (nth ((cursor p + 1) mod length (live p)) (live p) a0)).
Proof. intros Hl. unfold dispatch. by rewrite Hl. Qed.

(** The results of [m] dispatches: the cursor walks round the live
    addresses. *)
Lemma dispatches_results m : forall p a0 l,
  live p = a0 :: l ->
  snd (dispatches m p)
  = map (fun i => inr (nth ((cursor p + i) mod length (live p)) (live p) a0))
        (seq 1 m).
Proof.
  induction m as [|m IH]; intros p a0 l Hl; [done|].
  cbn [dispatches].
  pose proof (dispatch_live p) as Hl'.
  rewrite (dispatch_nonempty p a0 l Hl) in *. cbn [fst] in Hl'.
  match goal with
  | |- context [dispatches m ?q] => set (p' := q) in *
  end.
  specialize (IH p' a0 l). rewrite Hl' in IH. specialize (IH Hl).
  destruct (dispatches m p') as [p'' rs]. cbn [snd] in *. subst rs.
  cbn [seq map]. f_equal.
  - rewrite <- (seq_shift m 1), map_map. apply map_ext. intros i.
    do 2 f_equal. subst p'. cbn [cursor].
    rewrite Nat.Div0.add_mod_idemp_l. f_equal. lia.
Qed.

Lemma filter_map_length {A B} (f : A -> B) (P : B -> Prop)
    `{forall b, Decision (P b)} (l : list A) :
  length (filter P (map f l)) = length (filter (fun a => P (f a)) l).
Proof.
  induction l as [|a l IH]; [done|]. cbn [map]. rewrite !filter_cons.
  case_decide; cbn [length]; by rewrite IH.
Qed.

(** A live address is selected as often as the cursor passes its index. *)
Lemma selected_residues p m a0 l j :
  live p = a0 :: l -> NoDup (live p) -> (j < length (live p))%nat ->
  selected (nth j (live p) a0) (snd (dispatches m p))
  = residues (length (live p)) j (cursor p + 1) m.
Proof.
  intros Hl Hnd Hj. rewrite (dispatches_results m p a0 l Hl).
  unfold selected, residues.
  rewrite filter_map_length.
  rewrite <- (fmap_add_seq (cursor p) 1 m).
  change (Nat.add (cursor p) <$> seq 1 m) with (map (Nat.add (cursor p)) (seq 1 m)).
  rewrite filter_map_length. f_equal.
  apply list_filter_iff. intros i. cbn.
  assert (Hlt : ((cursor p + i) mod length (live p) < length (live p))%nat).
  { apply Nat.mod_upper_bound. rewrite Hl. done. }
  split.
  - intros [= H]. apply NoDup_ListNoDup in Hnd.
    by apply (proj1 (NoDup_nth _ a0) Hnd) in H.
  - by intros ->.
Qed.

(** C4: under the round-robin policy, with a stable set of [k] distinct
    healthy addresses and from any cursor, [m] consecutive dispatches all
    succeed; if [m] is a multiple of [k] each address is selected exactly
    [m / k] times, and in general the numbers of selections of two addresses
    differ by at most one. *)
Theorem round_robin_distribution p m :
  NoDup (live p) -> live p <> [] ->
  length (snd (dispatches m p)) = m
  /\ (forall r, In r (snd (dispatches m p)) -> exists a, r = inr a /\ In a (live p))
  /\ (m mod length (live p) = 0 ->
      forall a, In a (live p) ->
                selected a (snd (dispatches m p)) = (m / length (live p))%nat)
  /\ (forall a b, In a (live p) -> In b (live p) ->
                  (selected a (snd (dispatches m p))
                   <= selected b (snd (dispatches m p)) + 1)%nat).
Proof.
  intros Hnd Hne. destruct (live p) as [|a0 l] eqn:Hl; [done|].
  rewrite <- Hl in *.
  assert (Hsel : forall a, In a (live p) ->
            exists j, (j < length (live p))%nat
                      /\ selected a (snd (dispatches m p))
                         = residues (length (live p)) j (cursor p + 1) m).
  { intros a Ha. destruct (In_nth _ _ a0 Ha) as (j & Hj & <-).
    exists j. split; [done|]. by apply (selected_residues p m a0 l). }
  split; [|split; [|split]].
  - rewrite (dispatches_results m p a0 l Hl). by rewrite length_map, length_seq.
  - intros r. rewrite (dispatches_results m p a0 l Hl).
    intros (i & <- & _)%in_map_iff. eexists. split; [reflexivity|].
    apply nth_In. apply Nat.mod_upper_bound. rewrite Hl. done.
  - intros Hm a Ha. destruct (Hsel a Ha) as (j & Hj & ->).
    by apply residues_window.
  - intros a b Ha Hb.
    destruct (Hsel a Ha) as (j & Hj & ->). destruct (Hsel b Hb) as (j' & Hj' & ->).
    pose proof (proj1 (residues_window _ j (cursor p + 1) m Hj)).
    pose proof (proj1 (residues_window _ j' (cursor p + 1) m Hj')). lia.
Qed.

Lemma round_robin_distribution_witness :
  selected a1 (snd (dispatches 900 three_healthy)) = 300%nat
  /\ selected a2 (snd (dispatches 900 three_healthy)) = 300%nat
  /\ selected a3 (snd (dispatches 900 three_healthy)) = 300%nat.
Proof.
  destruct (round_robin_distribution three_healthy 900) as (_ & _ & H & _).
  - apply (bool_decide_unpack _). vm_compute. exact I.
  - vm_compute. discriminate.
  - repeat split; apply (H eq_refl); vm_compute; tauto.
Defined.

(** With the third of three addresses marked NOT_SERVING, 900 dispatches
    go 450 and 450 to the other two. *)
Example round_robin_one_down :
  selected a1 (snd (dispatches 900 one_down)) = 450%nat
  /\ selected a2 (snd (dispatches 900 one_down)) = 450%nat
  /\ selected a3 (snd (dispatches 900 one_down)) = 0%nat.
Proof. vm_compute. repeat split. Qed.

(** ** UTF-8 facts *)

(** The bytes that can start an encoding of each width. *)
Lemma first_ranges b :
  ((b < 0x80)%N /\ first b = as_)
  \/ ((0x80 <= b)%N /\ first b = xx)
  \/ ((0xC2 <= b < 0xE0)%N /\ first b = s1)
  \/ (b = 0xE0%N /\ first b = s2)
  \/ ((0xE1 <= b < 0xF0)%N /\ b <> 0xED%N /\ first b = s3)
  \/ (b = 0xED%N /\ first b = s4)
  \/ (b = 0xF0%N /\ first b = s5)
  \/ ((0xF1 <= b < 0xF4)%N /\ first b = s6)
  \/ (b = 0xF4%N /\ first b = s7).
Proof.
  unfold first.
  repeat match goal with
  | |- context [N.ltb ?a ?b] => destruct (N.ltb_spec a b)
  | |- context [N.eqb ?a ?b] => destruct (N.eqb_spec a b)
  end; subst; try lia; tauto.
Qed.

Ltac unfold_tables :=
  cbv [acceptRanges N.shiftr N.land xx s1 s2 s3 s4 s5 s6 s7 as_ locb hicb
       Pos.land Pos.shiftr Pos.iter Pos.div2 N.div2 N.succ_double N.double
       Pos.Ndouble Pos.Nsucc_double].

(** Decoding looks at the first four bytes at most. *)
Lemma decode_first_four s :
  DecodeRuneInString (slice s 0 (Nat.min (String.length s) UTFMax))
  = DecodeRuneInString s.
Proof.
  destruct s as [|c0 [|c1 [|c2 [|c3 t]]]]; try reflexivity.
  unfold UTFMax. cbn [String.length].
  replace (Nat.min (S (S (S (S (String.length t))))) 4) with 4%nat by lia.
  cbn [slice Nat.sub substring].
  rewrite substring_0.
  unfold DecodeRuneInString.
  destruct (first_cases (byte c0)) as [[Hb ->]|[Hb Hx]]; [reflexivity|].
  destruct Hx as [->|[->|[->|[->|[->|[->|[->| ->]]]]]]];
    unfold_tables; eval_ground; try reflexivity;
    cbn [String.length];
    repeat (match goal with
            | |- context [N.ltb ?a ?b] => destruct (N.ltb_spec a b)
            end; cbn [orb andb fst snd]); try reflexivity; lia.
Qed.

Lemma append_cons c a b : String c a ++ b = String c (a ++ b).
Proof. reflexivity. Qed.

Lemma append_nil b : EmptyString ++ b = b.
Proof. reflexivity. Qed.

Ltac simpl_append := rewrite ?append_cons, ?append_nil.

(** Evaluate what the tables say about a first byte of known class. *)
Ltac eval_first :=
  repeat match goal with
  | |- context [N.land ?x 7] =>
      is_const x; let v := eval vm_compute in (N.land x 7) in
      change (N.land x 7) with v
  | |- context [acceptRanges (N.shiftr ?x 4)] =>
      is_const x; let v := eval vm_compute in (acceptRanges (N.shiftr x 4)) in
      change (acceptRanges (N.shiftr x 4)) with v
  end; cbn [fst snd]; eval_ground.

Ltac split_tests :=
  repeat (match goal with
          | |- context [N.ltb ?a ?b] => destruct (N.ltb_spec a b)
          | |- context [N.leb ?a ?b] => destruct (N.leb_spec a b)
          end; cbn [orb andb fst snd]).

(** A valid encoding decodes the same whatever follows it. *)
Lemma decode_prefix c t r size X :
  DecodeRuneInString (String c t) = (r, size) ->
  (r =? RuneError)%N && Nat.eqb size 1 = false ->
  DecodeRuneInString (slice (String c t) 0 size ++ X) = (r, size).
Proof.
  unfold DecodeRuneInString at 1.
  destruct (first_cases (byte c)) as [[Hb Hx]|[Hb Hx]].
  - rewrite Hx. eval_first. intros [= <- <-] _.
    cbn [slice Nat.sub substring]. rewrite substring_0. simpl_append.
    unfold DecodeRuneInString. rewrite Hx. reflexivity.
  - destruct Hx as [Hx|[Hx|[Hx|[Hx|[Hx|[Hx|[Hx|Hx]]]]]]];
      rewrite Hx; eval_first;
      try (intros [= <- <-] Hv; discriminate Hv);
      repeat (decode_step; eval_ground);
      intros [= <- <-] Hv; try discriminate Hv;
      cbn [slice Nat.sub substring]; rewrite ?substring_0; simpl_append;
      unfold DecodeRuneInString; rewrite Hx; eval_first;
      cbn [String.length]; split_tests; try reflexivity; lia.
Qed.
Import json.
Lemma lor_disjoint x y k :
  (x mod 2 ^ k = 0)%N -> (y < 2 ^ k)%N -> N.lor x y = (x + y)%N.
Proof.
  intros Hx Hy.
  assert (Hland : N.land x y = 0%N).
  { apply N.bits_inj_iff. intros i. rewrite N.land_spec, N.bits_0.
    destruct (N.lt_ge_cases i k) as [Hi|Hi].
    - replace x with (N.shiftl (x / 2 ^ k) k).
      + by rewrite N.shiftl_spec_low.
      + rewrite N.shiftl_mul_pow2.
        pose proof (N.div_mod x (2 ^ k)) as Hd.
        rewrite Hx in Hd. rewrite N.mul_comm. symmetry. rewrite N.add_0_r in Hd.
        apply Hd. apply N.pow_nonzero. lia.
    - rewrite <- (N.mod_small y (2 ^ k)) by done.
      rewrite N.mod_pow2_bits_high by done. apply andb_false_r. }
  rewrite <- N.lxor_lor by done. by rewrite N.add_nocarry_lxor.
Qed.

Lemma land_maskx b : N.land b maskx = (b mod 64)%N.
Proof. change maskx with (N.ones 6). by rewrite N.land_ones. Qed.
Lemma land_mask2 b : N.land b mask2 = (b mod 32)%N.
Proof. change mask2 with (N.ones 5). by rewrite N.land_ones. Qed.
Lemma land_mask3 b : N.land b mask3 = (b mod 16)%N.
Proof. change mask3 with (N.ones 4). by rewrite N.land_ones. Qed.
Lemma land_mask4 b : N.land b mask4 = (b mod 8)%N.
Proof. change mask4 with (N.ones 3). by rewrite N.land_ones. Qed.

Lemma rune2 b0 b1 :
  N.lor (N.shiftl (N.land b0 mask2) 6) (N.land b1 maskx)
  = (b0 mod 32 * 64 + b1 mod 64)%N.
Proof.
  rewrite land_mask2, land_maskx, N.shiftl_mul_pow2.
  change (2 ^ 6)%N with 64%N.
  apply (lor_disjoint _ _ 6); change (2 ^ 6)%N with 64%N.
  - by rewrite N.Div0.mod_mul.
  - apply N.mod_lt. lia.
Qed.

Lemma rune3 b0 b1 b2 :
  N.lor (N.lor (N.shiftl (N.land b0 mask3) 12) (N.shiftl (N.land b1 maskx) 6))
        (N.land b2 maskx)
  = (b0 mod 16 * 4096 + b1 mod 64 * 64 + b2 mod 64)%N.
Proof.
  rewrite land_mask3, !land_maskx, !N.shiftl_mul_pow2.
  change (2 ^ 6)%N with 64%N. change (2 ^ 12)%N with 4096%N.
  pose proof (N.mod_lt b1 64 ltac:(lia)). pose proof (N.mod_lt b2 64 ltac:(lia)).
  assert (H12 : N.lor (b0 mod 16 * 4096) (b1 mod 64 * 64)
                = (b0 mod 16 * 4096 + b1 mod 64 * 64)%N).
  { apply (lor_disjoint _ _ 12); change (2 ^ 12)%N with 4096%N; [|lia].
    by rewrite N.Div0.mod_mul. }
  rewrite H12.
  apply (lor_disjoint _ _ 6); change (2 ^ 6)%N with 64%N; [|lia].
  replace (b0 mod 16 * 4096 + b1 mod 64 * 64)%N
    with ((b0 mod 16 * 64 + b1 mod 64) * 64)%N by lia.
  by rewrite N.Div0.mod_mul.
Qed.

Lemma rune4 b0 b1 b2 b3 :
  N.lor (N.lor (N.lor (N.shiftl (N.land b0 mask4) 18)
                      (N.shiftl (N.land b1 maskx) 12))
               (N.shiftl (N.land b2 maskx) 6))
        (N.land b3 maskx)
  = (b0 mod 8 * 262144 + b1 mod 64 * 4096 + b2 mod 64 * 64 + b3 mod 64)%N.
Proof.
  rewrite land_mask4, !land_maskx, !N.shiftl_mul_pow2.
  change (2 ^ 6)%N with 64%N. change (2 ^ 12)%N with 4096%N.
  change (2 ^ 18)%N with 262144%N.
  pose proof (N.mod_lt b1 64 ltac:(lia)). pose proof (N.mod_lt b2 64 ltac:(lia)).
  pose proof (N.mod_lt b3 64 ltac:(lia)).
  assert (H18 : N.lor (b0 mod 8 * 262144) (b1 mod 64 * 4096)
                = (b0 mod 8 * 262144 + b1 mod 64 * 4096)%N).
  { apply (lor_disjoint _ _ 18); change (2 ^ 18)%N with 262144%N; [|lia].
    by rewrite N.Div0.mod_mul. }
  rewrite H18.
  assert (H12 : N.lor (b0 mod 8 * 262144 + b1 mod 64 * 4096) (b2 mod 64 * 64)
                = (b0 mod 8 * 262144 + b1 mod 64 * 4096 + b2 mod 64 * 64)%N).
  { apply (lor_disjoint _ _ 12); change (2 ^ 12)%N with 4096%N; [|lia].
    replace (b0 mod 8 * 262144 + b1 mod 64 * 4096)%N
      with ((b0 mod 8 * 64 + b1 mod 64) * 4096)%N by lia.
    by rewrite N.Div0.mod_mul. }
  rewrite H12.
  apply (lor_disjoint _ _ 6); change (2 ^ 6)%N with 64%N; [|lia].
  replace (b0 mod 8 * 262144 + b1 mod 64 * 4096 + b2 mod 64 * 64)%N
    with ((b0 mod 8 * 4096 + b1 mod 64 * 64 + b2 mod 64) * 64)%N by lia.
  by rewrite N.Div0.mod_mul.
Qed.

Ltac mod_facts H :=
  repeat match type of H with
  | context [(?b mod ?k)%N] =>
      let m := fresh "m" in
      let Hm := fresh "Hm" in
      pose proof (N.mod_lt b k ltac:(lia));
      pose proof (N.div_mod' b k);
      remember (b mod k)%N as m eqn:Hm in *; clear Hm
  end.

(** The only encodings of U+2028 and U+2029 are the canonical ones. *)
Lemma decode_line_separator c t r size :
  DecodeRuneInString (String c t) = (r, size) ->
  r = 0x2028%N \/ r = 0x2029%N ->
  slice (String c t) 0 size = json.EncodeRune r.
Proof.
  unfold DecodeRuneInString.
  destruct (first_ranges (byte c))
    as [[Hb Hx]|[[Hb Hx]|[[Hb Hx]|[[Hb Hx]|[(Hb & Hb' & Hx)|[[Hb Hx]|[[Hb Hx]|
        [[Hb Hx]|[Hb Hx]]]]]]]]];
    rewrite Hx; eval_first; repeat (decode_step; eval_ground);
    intros [= Hr <-] Hrr; rewrite ?rune2, ?rune3, ?rune4 in Hr;
    unfold RuneError in *; pose proof Hr as Hr'; mod_facts Hr';
    try (exfalso; lia).
  cbn [slice Nat.sub substring]; rewrite ?substring_0.
  unfold locb, hicb, byte in *.
  assert (Hm : m = 2%N /\ m0 = 0%N) by lia. destruct Hm as [-> ->].
  assert (Hc : N_of_ascii c = 226%N) by lia.
  assert (Hc1 : N_of_ascii a = 128%N) by lia.
  rewrite <- (ascii_N_embedding c), <- (ascii_N_embedding a),
    <- (ascii_N_embedding a0), Hc, Hc1.
  destruct Hrr as [-> | ->].
  - assert (Hc2 : N_of_ascii a0 = 168%N) by lia. rewrite Hc2. reflexivity.
  - assert (Hc2 : N_of_ascii a0 = 169%N) by lia. rewrite Hc2. reflexivity.
Qed.

(** ** Strings *)

Lemma length_append s1 s2 :
  String.length (s1 ++ s2) = (String.length s1 + String.length s2)%nat.
Proof.
  induction s1 as [|c s1 IH]; simpl_append; cbn [String.length]; [done|].
  by rewrite IH.
Qed.

Lemma append_assoc s1 s2 s3 : (s1 ++ s2) ++ s3 = s1 ++ (s2 ++ s3).
Proof. induction s1 as [|c s1 IH]; simpl_append; [done|]. by rewrite IH. Qed.

Lemma slice_length s n :
  (n <= String.length s)%nat -> String.length (slice s 0 n) = n.
Proof.
  unfold slice. rewrite Nat.sub_0_r. revert n.
  induction s as [|c s IH]; intros [|n] Hn; cbn in *; try done; try lia.
  rewrite IH; lia.
Qed.

Lemma slice_drop s n : slice s 0 n ++ drop_bytes n s = s.
Proof.
  unfold slice. rewrite Nat.sub_0_r. revert n.
  induction s as [|c s IH]; intros [|n]; cbn [substring drop_bytes];
    simpl_append; try done. by rewrite IH.
Qed.

Lemma slice_append p Y : slice (p ++ Y) 0 (String.length p) = p.
Proof.
  unfold slice. rewrite Nat.sub_0_r.
  induction p as [|c p IH]; simpl_append; cbn [String.length substring];
    [apply substring_0|]. by rewrite IH.
Qed.

Lemma drop_append p Y : drop_bytes (String.length p) (p ++ Y) = Y.
Proof.
  induction p as [|c p IH]; simpl_append; cbn [String.length drop_bytes];
    [by destruct Y|done].
Qed.

(** ** Quoting and unquoting *)

Import json.

(** One step of [unquote] on a byte that [appendString] writes as it is. *)
Lemma unquote_safe c X f :
  htmlSafeSet (byte c) = true ->
  unquote_from (S f) (String c X) = cons_fst (String c EmptyString) (unquote_from f X).
Proof.
  destruct c as [[] [] [] [] [] [] [] []]; intros H;
    try (vm_compute in H; discriminate H); reflexivity.
Qed.

(** One step of [unquote] on the escape of an ASCII byte. *)
Lemma unquote_escape c X f :
  (byte c <? RuneSelf)%N = true ->
  htmlSafeSet (byte c) = false ->
  unquote_from (S f) (escapeByte c ++ X)
  = cons_fst (String c EmptyString) (unquote_from f X).
Proof.
  destruct c as [[] [] [] [] [] [] [] []]; intros H1 H2;
    try (vm_compute in H1; discriminate H1);
    try (vm_compute in H2; discriminate H2); reflexivity.
Qed.

Lemma decode_ascii c t :
  (byte c <? RuneSelf)%N = true -> DecodeRuneInString (String c t) = (byte c, 1%nat).
Proof.
  intros H%N.ltb_lt. unfold RuneSelf in H. unfold DecodeRuneInString.
  destruct (first_ranges (byte c))
    as [[Hb Hx]|[[Hb Hx]|[[Hb Hx]|[[Hb Hx]|[(Hb & Hb' & Hx)|[[Hb Hx]|[[Hb Hx]|
        [[Hb Hx]|[Hb Hx]]]]]]]]]; try lia.
  by rewrite Hx.
Qed.

Lemma slice_1 c t : slice (String c t) 0 1 = String c EmptyString.
Proof. unfold slice. cbn [Nat.sub substring]. by rewrite substring_0. Qed.

Lemma coerce_ascii c t f :
  (byte c <? RuneSelf)%N = true ->
  coerce_from (S f) (String c t) = String c (coerce_from f t).
Proof.
  intros H. cbn [coerce_from]. rewrite (decode_ascii _ _ H).
  apply N.ltb_lt in H. unfold RuneSelf, RuneError in *.
  destruct (N.eqb_spec (byte c) 65533); [lia|]. cbn [andb].
  by rewrite slice_1.
Qed.

Lemma escape_length c : (1 <= String.length (escapeByte c))%nat.
Proof.
  unfold escapeByte.
  repeat match goal with |- context [if ?b then _ else _] => destruct b end;
    cbn; lia.
Qed.

(** One step of [unquote] on a byte that is not ASCII. *)
Lemma unquote_high c Z f :
  (byte c <? RuneSelf)%N = false ->
  unquote_from (S f) (String c Z)
  = let '(r, size) := DecodeRuneInString (String c Z) in
    if (r =? RuneError)%N && Nat.eqb size 1
    then cons_fst (EncodeRune RuneError) (unquote_from f Z)
    else cons_fst (slice (String c Z) 0 size)
                  (unquote_from f (drop_bytes size (String c Z))).
Proof.
  intros H. cbn [unquote_from].
  destruct (Ascii.eqb_spec c dquote) as [->|_]; [vm_compute in H; discriminate H|].
  destruct (Ascii.eqb_spec c backslash) as [->|_]; [vm_compute in H; discriminate H|].
  apply N.ltb_ge in H. unfold RuneSelf in *.
  destruct (N.ltb_spec (byte c) 32); [lia|].
  destruct (N.ltb_spec (byte c) 128); [lia|]. reflexivity.
Qed.

Lemma slice_append_n p Y n : String.length p = n -> slice (p ++ Y) 0 n = p.
Proof. intros <-. apply slice_append. Qed.

Lemma drop_append_n p Y n : String.length p = n -> drop_bytes n (p ++ Y) = Y.
Proof. intros <-. apply drop_append. Qed.

Lemma appendString_from_nil f : appendString_from f EmptyString = EmptyString.
Proof. by destruct f. Qed.

Lemma coerce_from_nil f : coerce_from f EmptyString = EmptyString.
Proof. by destruct f. Qed.

Lemma appendString_from_cons f c t :
  appendString_from (S f) (String c t)
  = if (byte c <? RuneSelf)%N then
      if htmlSafeSet (byte c) then String c (appendString_from f t)
      else escapeByte c ++ appendString_from f t
    else
      let '(r, size) := DecodeRuneInString (String c t) in
      if (r =? RuneError)%N && Nat.eqb size 1 then
        String backslash "ufffd" ++ appendString_from f (drop_bytes size (String c t))
      else if ((r =? 0x2028) || (r =? 0x2029))%N then
        String backslash "u202" ++ String (hex (N.land r 0xF)) EmptyString
          ++ appendString_from f (drop_bytes size (String c t))
      else
        slice (String c t) 0 size ++ appendString_from f (drop_bytes size (String c t)).
Proof.
  cbn [appendString_from]. by rewrite decode_first_four.
Qed.

Lemma coerce_from_cons f c t :
  coerce_from (S f) (String c t)
  = let '(r, size) := DecodeRuneInString (String c t) in
    if (r =? RuneError)%N && Nat.eqb size 1 then
      EncodeRune RuneError ++ coerce_from f (drop_bytes 1 (String c t))
    else slice (String c t) 0 size ++ coerce_from f (drop_bytes size (String c t)).
Proof. reflexivity. Qed.

Lemma unquote_replacement X f :
  unquote_from (S f) (String backslash "ufffd" ++ X)
  = cons_fst (EncodeRune RuneError) (unquote_from f X).
Proof. reflexivity. Qed.

Lemma unquote_line_separator r X f :
  r = 0x2028%N \/ r = 0x2029%N ->
  unquote_from (S f)
    (String backslash "u202" ++ String (hex (N.land r 0xF)) EmptyString ++ X)
  = cons_fst (EncodeRune r) (unquote_from f X).
Proof. intros [-> | ->]; reflexivity. Qed.

(** Unquoting what [appendString] wrote gives the string back, its invalid
    bytes coerced to U+FFFD. *)
Lemma unquote_appendString_from n : forall s f1 f2 f3 rest,
  (String.length s <= n)%nat ->
  (String.length s <= f1)%nat -> (String.length s <= f2)%nat ->
  (String.length (appendString_from f1 s) < f3)%nat ->
  unquote_from f3 (appendString_from f1 s ++ String dquote rest)
  = Some (coerce_from f2 s, rest).
Proof.
  induction n as [|n IH]; intros s f1 f2 f3 rest Hn H1 H2 H3.
  - destruct s; [|cbn in Hn; lia].
    rewrite appendString_from_nil, coerce_from_nil in *.
    destruct f3; [cbn in H3; lia|]. reflexivity.
  - destruct s as [|c t].
    { rewrite appendString_from_nil, coerce_from_nil in *.
      destruct f3; [cbn in H3; lia|]. reflexivity. }
    cbn [String.length] in Hn, H1, H2.
    destruct f1 as [|f1]; [lia|]. destruct f2 as [|f2]; [lia|].
    rewrite appendString_from_cons in *. revert H3.
    destruct (byte c <? RuneSelf)%N eqn:Hc.
    + rewrite (coerce_ascii _ _ _ Hc).
      destruct (htmlSafeSet (byte c)) eqn:Hs; intros H3.
      * cbn [String.length] in H3. destruct f3 as [|f3]; [lia|].
        simpl_append. rewrite (unquote_safe _ _ _ Hs).
        rewrite (IH t f1 f2 f3 rest) by lia. reflexivity.
      * rewrite length_append in H3. pose proof (escape_length c).
        destruct f3 as [|f3]; [lia|].
        rewrite append_assoc, (unquote_escape _ _ _ Hc Hs).
        rewrite (IH t f1 f2 f3 rest) by lia. reflexivity.
    + rewrite coerce_from_cons.
      pose proof (decode_size c t) as Hsz.
      destruct (DecodeRuneInString (String c t)) as [r size] eqn:Hd.
      cbn [snd String.length] in Hsz.
      pose proof (drop_bytes_length size (String c t)) as Hdrop.
      cbn [String.length] in Hdrop.
      destruct ((r =? RuneError)%N && Nat.eqb size 1) eqn:Hinv.
      * intros H3. apply andb_true_iff in Hinv. destruct Hinv as [_ ->%Nat.eqb_eq].
        rewrite length_append in H3. cbn [String.length] in H3.
        destruct f3 as [|f3]; [lia|].
        rewrite append_assoc, unquote_replacement.
        rewrite (IH _ f1 f2 f3 rest) by lia. reflexivity.
      * destruct ((r =? 0x2028) || (r =? 0x2029))%N eqn:Hls; intros H3.
        -- assert (Hr : r = 0x2028%N \/ r = 0x2029%N).
           { apply orb_true_iff in Hls. destruct Hls as [H|H]; apply N.eqb_eq in H; tauto. }
           rewrite !length_append in H3. cbn [String.length] in H3.
           destruct f3 as [|f3]; [lia|].
           rewrite !append_assoc, (unquote_line_separator _ _ _ Hr).
           rewrite (IH _ f1 f2 f3 rest) by lia.
           cbn [cons_fst]. by rewrite (decode_line_separator _ _ _ _ Hd Hr).
        -- rewrite length_append, slice_length in H3 by (cbn [String.length]; lia).
           destruct f3 as [|f3]; [lia|].
           rewrite append_assoc.
           set (Y := appendString_from f1 (drop_bytes size (String c t))
                      ++ String dquote rest).
           pose proof (decode_prefix c t r size Y Hd Hinv) as Hp.
           assert (Hlen : String.length (slice (String c t) 0 size) = size)
             by (apply slice_length; cbn [String.length]; lia).
           assert (HP : exists W, slice (String c t) 0 size = String c W).
           { destruct size; [lia|]. eexists. unfold slice.
             cbn [Nat.sub substring]. reflexivity. }
           destruct HP as [W HP].
           rewrite HP at 1. rewrite append_cons, (unquote_high _ _ _ Hc).
           rewrite <- append_cons, <- HP, Hp, Hinv.
           rewrite (slice_append_n _ _ _ Hlen), (drop_append_n _ _ _ Hlen).
           subst Y. rewrite (IH _ f1 f2 f3 rest) by lia. reflexivity.
Qed.

Lemma unquote_appendString s rest :
  unquote (appendString_from (String.length s) s ++ String dquote rest)
  = Some (coerce s, rest).
Proof.
  unfold unquote, coerce.
  apply (unquote_appendString_from (String.length s)); try done.
  rewrite length_append. cbn [String.length]. lia.
Qed.

(** A valid string is not changed by the coercion. *)
Lemma coerce_from_valid n : forall s f1 f2,
  (String.length s <= n)%nat ->
  (String.length s <= f1)%nat -> (String.length s <= f2)%nat ->
  ValidString_from f1 s = true -> coerce_from f2 s = s.
Proof.
  induction n as [|n IH]; intros s f1 f2 Hn H1 H2 Hv.
  - destruct s; [apply coerce_from_nil|cbn in Hn; lia].
  - destruct s as [|c t]; [apply coerce_from_nil|].
    cbn [String.length] in *.
    destruct f1 as [|f1]; [lia|]. destruct f2 as [|f2]; [lia|].
    rewrite coerce_from_cons. cbn [ValidString_from] in Hv.
    pose proof (decode_size c t) as Hsz.
    pose proof (drop_bytes_length (snd (DecodeRuneInString (String c t))) (String c t))
      as Hdrop.
    destruct (DecodeRuneInString (String c t)) as [r size].
    cbn [snd String.length] in *.
    destruct ((r =? RuneError)%N && Nat.eqb size 1); [done|].
    rewrite (IH _ f1 f2) by (try done; lia). apply slice_drop.
Qed.

Lemma coerce_valid s : ValidString s = true -> coerce s = s.
Proof. intros H. by apply (coerce_from_valid (String.length s) s (String.length s)). Qed.

(** ** The service config *)

Lemma sort_entries_one kv : sort_entries [kv] = [kv].
Proof. reflexivity. Qed.

Lemma sort_entries_config v1 v2 :
  sort_entries [("loadBalancingConfig", v1); ("healthCheckConfig", v2)]
  = [("healthCheckConfig", v2); ("loadBalancingConfig", v1)].
Proof. reflexivity. Qed.

(** The text [DefaultServiceConfig] marshals: the two keys in sorted order,
    the service name quoted between them. *)
Lemma Marshal_serviceConfig serviceName :
  Marshal (serviceConfig serviceName)
  = inr (config_prefix ++ appendString serviceName ++ config_suffix).
Proof.
  unfold Marshal, serviceConfig. cbn [encode].
  rewrite sort_entries_config, !sort_entries_one. cbn [map Join fst snd].
  f_equal. unfold config_prefix, config_suffix.
  generalize (appendString serviceName) as q. intros q.
  rewrite !append_assoc. vm_compute. reflexivity.
Qed.

(** ** Reading the marshalled configuration *)

(** The equations of the three mutually recursive readers. *)
Lemma parse_value_S f s :
  parse_value (S f) s
  = ltac:(let t := eval simpl in (parse_value (S f) s) in exact t).
Proof. reflexivity. Qed.

Lemma parse_members_S f s :
  parse_members (S f) s
  = ltac:(let t := eval simpl in (parse_members (S f) s) in exact t).
Proof. reflexivity. Qed.

Lemma parse_elements_S f s :
  parse_elements (S f) s
  = ltac:(let t := eval simpl in (parse_elements (S f) s) in exact t).
Proof. reflexivity. Qed.

Lemma skip_ws_cons c X : is_ws c = false -> skip_ws (String c X) = String c X.
Proof. intros H. cbn [skip_ws]. by rewrite H. Qed.

Lemma unquote_end f Z : unquote_from (S f) (String dquote Z) = Some (EmptyString, Z).
Proof. reflexivity. Qed.

(** Evaluate the tests on known bytes. *)
Ltac eval_tests :=
  repeat match goal with
  | |- context [N.eqb (byte ?c) ?k] =>
      let v := eval vm_compute in (N.eqb (byte c) k) in
      match v with
      | true => change (N.eqb (byte c) k) with true
      | false => change (N.eqb (byte c) k) with false
      end
  | |- context [Ascii.eqb ?c ?d] =>
      let v := eval vm_compute in (Ascii.eqb c d) in
      match v with
      | true => change (Ascii.eqb c d) with true
      | false => change (Ascii.eqb c d) with false
      end
  end.

(** One step of reading a text whose head is known. *)
Ltac read_step :=
  first
    [ rewrite skip_ws_cons by reflexivity
    | rewrite unquote_safe by reflexivity
    | rewrite unquote_end
    | match goal with
      | |- context [unquote (String ?c ?Y)] =>
          unfold unquote at 1; cbn [String.length]
      end
    | rewrite parse_value_S
    | rewrite parse_members_S
    | rewrite parse_elements_S ];
  cbv beta iota; eval_tests; cbv beta iota; cbn [cons_fst].

Lemma Unmarshal_config x v :
  unquote (x ++ String dquote config_suffix) = Some (v, config_suffix) ->
  Unmarshal (config_prefix ++ String dquote (x ++ String dquote config_suffix))
  = Some (config_json v).
Proof.
  intros H. unfold Unmarshal.
  let p := eval vm_compute in config_prefix in change config_prefix with p.
  let p := eval vm_compute in config_suffix in change config_suffix with p in *.
  simpl_append. cbn [String.length].
  repeat first [rewrite H; cbv beta iota | read_step].
  reflexivity.
Qed.

Lemma appendString_unfold s :
  appendString s
  = String dquote (appendString_from (String.length s) s ++ String dquote EmptyString).
Proof. reflexivity. Qed.

(** What [DefaultServiceConfig] returns and what it denotes. *)
Lemma DefaultServiceConfig_text serviceName :
  DefaultServiceConfig serviceName
  = config_prefix ++ appendString serviceName ++ config_suffix.
Proof. unfold DefaultServiceConfig. by rewrite Marshal_serviceConfig. Qed.

Lemma DefaultServiceConfig_Unmarshal serviceName :
  Unmarshal (DefaultServiceConfig serviceName)
  = Some (config_json (coerce serviceName)).
Proof.
  rewrite DefaultServiceConfig_text, appendString_unfold.
  rewrite append_cons, append_assoc, append_cons, append_nil.
  apply Unmarshal_config. apply unquote_appendString.
Qed.

Lemma Unmarshal_fallbackConfig :
  Unmarshal fallbackConfig
  = Some (JObject [("loadBalancingConfig",
                    JArray [JObject [("round_robin", JObject [])]])]).
Proof. vm_compute. reflexivity. Qed.

(** C10 as stated fails: for a service name that is not valid UTF-8 (the
    single byte 0xFF) the configuration parses, but its field
    healthCheckConfig.serviceName is U+FFFD, not the name given. *)
Lemma DefaultServiceConfig_invalid_name_replaced :
  ~ (forall serviceName,
       exists j,
         Unmarshal (DefaultServiceConfig serviceName) = Some j
         /\ match field "healthCheckConfig" j with
            | Some h => field "serviceName" h
            | None => None
            end = Some (JString serviceName)).
Proof.
  intros H. destruct (H (String (ascii_of_N 255) EmptyString)) as (j & Hj & Hf).
  rewrite DefaultServiceConfig_Unmarshal in Hj. injection Hj as <-.
  vm_compute in Hf. discriminate Hf.
Qed.

(** C10, amended: for every service name, [DefaultServiceConfig] returns
    what [json.Marshal] produced and never the fallback text; the text
    returned is a JSON object with exactly the two fields
    healthCheckConfig = {serviceName: name'} and loadBalancingConfig =
    [{round_robin: {}}], where name' is the service name with every byte that
    is not part of a valid UTF-8 encoding replaced by U+FFFD; name' is the
    service name itself when this is valid UTF-8. *)
Theorem DefaultServiceConfig_json serviceName :
  (exists raw,
      Marshal (serviceConfig serviceName) = inr raw
      /\ DefaultServiceConfig serviceName = raw)
  /\ DefaultServiceConfig serviceName <> fallbackConfig
  /\ Unmarshal (DefaultServiceConfig serviceName)
     = Some (config_json (coerce serviceName))
  /\ (ValidString serviceName = true -> coerce serviceName = serviceName).
Proof.
  split; [|split; [|split]].
  - eexists. split; [apply Marshal_serviceConfig|]. apply DefaultServiceConfig_text.
  - intros Heq. pose proof (DefaultServiceConfig_Unmarshal serviceName) as H.
    rewrite Heq, Unmarshal_fallbackConfig in H. unfold config_json in H.
    discriminate H.
  - apply DefaultServiceConfig_Unmarshal.
  - apply coerce_valid.
Qed.

Lemma DefaultServiceConfig_json_witness :
  Unmarshal (DefaultServiceConfig "sharding.v1.ShardingService")
  = Some (config_json "sharding.v1.ShardingService").
Proof.
  destruct (DefaultServiceConfig_json "sharding.v1.ShardingService")
    as (_ & _ & H & Hv).
  rewrite H, Hv; reflexivity.
Defined.

(** * Further properties *)

Import more.

(** ** The static resolver *)

(** X1: The outcome of [Build]: a resolver exactly when the endpoint has an
    entry and the connection accepts the state; the error about the state
    exactly when the endpoint has an entry and the connection rejects the
    state, which it has then received all the same. *)
Theorem static_Build_outcome target cc :
  (forall r, snd (static_Build target cc) = inr r
             <-> entries (Endpoint target) <> []
                 /\ verdict cc (static_state target) = None)
  /\ (forall e, snd (static_Build target cc) = inl (ErrUpdateState e)
                <-> entries (Endpoint target) <> []
                    /\ verdict cc (static_state target) = Some e)
  /\ (forall e, snd (static_Build target cc) = inl (ErrUpdateState e) ->
                updates (fst (static_Build target cc))
                = (updates cc ++ [static_state target])%list).
Proof.
  destruct (decide (entries (Endpoint target) = [])) as [Hnil|Hne].
  - rewrite (static_Build_invalid _ _ Hnil). cbn [fst snd].
    split; [|split].
    + intros r. split; [discriminate|]. by intros [H _].
    + intros e. split; [|by intros [H _]].
      destruct (String.eqb (Endpoint target) EmptyString); discriminate.
    + intros e. destruct (String.eqb (Endpoint target) EmptyString); discriminate.
  - rewrite (static_Build_valid _ _ Hne). cbn zeta. cbn [fst snd].
    fold (static_state target). unfold UpdateState. cbn [fst].
    destruct (verdict cc (static_state target)) as [e0|] eqn:Hv.
    + split; [|split].
      * intros r. split; [discriminate|]. intros [_ H]. discriminate.
      * intros e. split; [intros [= ->]; done|]. intros [_ [= ->]]. done.
      * intros e _. reflexivity.
    + split; [|split].
      * intros r. split; [done|]. intros _. by destruct r.
      * intros e. split; [discriminate|]. intros [_ H]. discriminate.
      * intros e. discriminate.
Qed.

Lemma static_Build_outcome_witness :
  snd (static_Build (endpoint_of "a:1,b:2") cc_reject)
  = inl (ErrUpdateState "bad resolver state")
  /\ length (updates (fst (static_Build (endpoint_of "a:1,b:2") cc_reject))) = 1%nat.
Proof.
  destruct (static_Build_outcome (endpoint_of "a:1,b:2") cc_reject) as (_ & H2 & H3).
  assert (H : snd (static_Build (endpoint_of "a:1,b:2") cc_reject)
              = inl (ErrUpdateState "bad resolver state")).
  { apply H2. split; [vm_compute; discriminate|reflexivity]. }
  split; [exact H|]. rewrite (H3 _ H). reflexivity.
Defined.

(** *** What the published addresses look like *)

Lemma no_byte_substring c s : forall i n,
  contains_byte c s = false -> contains_byte c (substring i n s) = false.
Proof.
  induction s as [|a s IH]; intros i n H; [by destruct i, n|].
  simpl in H. apply orb_false_iff in H as [Ha Hs].
  destruct i as [|i]; simpl.
  - destruct n as [|n]; [done|]. simpl. by rewrite Ha, (IH 0%nat n Hs).
  - by apply IH.
Qed.

Lemma no_byte_drop c s : forall i,
  contains_byte c s = false -> contains_byte c (drop_bytes i s) = false.
Proof.
  induction s as [|a s IH]; intros i H; [by destruct i|].
  destruct i as [|i]; [done|]. simpl in H. apply orb_false_iff in H as [_ Hs].
  simpl. by apply IH.
Qed.

Lemma no_byte_TrimRightFunc c s f :
  contains_byte c s = false -> contains_byte c (strings.TrimRightFunc s f) = false.
Proof.
  intros H. unfold strings.TrimRightFunc, slice.
  destruct (strings.lastIndexFunc s f false); [|by apply no_byte_substring].
  destruct (_ <=? _)%N; by apply no_byte_substring.
Qed.

Lemma no_byte_TrimLeftFunc c s f :
  contains_byte c s = false -> contains_byte c (strings.TrimLeftFunc s f) = false.
Proof.
  intros H. unfold strings.TrimLeftFunc.
  destruct (strings.indexFunc s f false); [by apply no_byte_drop|done].
Qed.

(** Trimming brings in no byte the string does not have. *)
Lemma no_byte_TrimSpace c s :
  contains_byte c s = false -> contains_byte c (strings.TrimSpace s) = false.
Proof.
  intros H. unfold strings.TrimSpace.
  destruct (strings.scanStart s 0).
  - destruct (strings.scanStop _ _ _).
    + by apply no_byte_substring.
    + by apply no_byte_TrimRightFunc, no_byte_substring.
  - by apply no_byte_TrimRightFunc, no_byte_TrimLeftFunc, no_byte_drop.
Qed.

(** [n] separators give [n+1] pieces. *)
Lemma Split_length s c : length (Split s c) = S (count_byte c s).
Proof.
  induction s as [|a s IH]; simpl; [done|].
  destruct (Ascii.eqb a c); simpl; [by rewrite IH|].
  destruct (Split s c) as [|p ps]; [done|]. simpl in *. lia.
Qed.

Lemma entries_length e :
  (length (loadbalancer.entries e) <= S (count_byte ","%char e))%nat.
Proof.
  unfold loadbalancer.entries.
  etransitivity; [apply length_filter|]. by rewrite length_map, Split_length.
Qed.

Lemma entries_no_comma e h :
  In h (loadbalancer.entries e) -> h <> EmptyString /\ contains_byte ","%char h = false.
Proof.
  unfold loadbalancer.entries. rewrite <- list_elem_of_In.
  intros [Hne Hin]%list_elem_of_filter. split; [done|].
  apply list_elem_of_fmap in Hin as (p & -> & Hp).
  apply no_byte_TrimSpace.
  pose proof (Split_no_sep e ","%char) as HF.
  rewrite Forall_forall in HF. by apply HF.
Qed.

Lemma asciiSpace_IsSpace b : strings.asciiSpace b = true -> IsSpace b = true.
Proof.
  unfold strings.asciiSpace. intros H.
  repeat (apply orb_true_iff in H as [H|H]); apply N.eqb_eq in H; by subst.
Qed.

Lemma high_not_asciiSpace b : (0x80 <= b)%N -> strings.asciiSpace b = false.
Proof.
  intros H. unfold strings.asciiSpace.
  repeat match goal with
  | |- context [N.eqb ?a ?b] => destruct (N.eqb_spec a b); [lia|]
  end. done.
Qed.

Lemma nonspace_rune_first_byte c t :
  IsSpace (fst (DecodeRuneInString (String c t))) = false ->
  strings.asciiSpace (byte c) = false.
Proof.
  intros H. pose proof (decode_decoded c t) as Hd.
  destruct (DecodeRuneInString (String c t)) as [r size]. cbn [fst] in H.
  inversion Hd; subst; try (by apply high_not_asciiSpace).
  destruct (strings.asciiSpace (byte c)) eqn:E; [|done].
  by rewrite (asciiSpace_IsSpace _ E) in H.
Qed.

Lemma starts_with_space_prefix s n :
  starts_with_space s = false -> starts_with_space (substring 0 n s) = false.
Proof. by destruct s, n. Qed.

Lemma substring_drop s : forall i n,
  substring i n s = substring 0 n (drop_bytes i s).
Proof.
  induction s as [|c s IH]; intros [|i] n; try done; [by destruct n|].
  cbn [drop_bytes]. rewrite <- IH. done.
Qed.

Lemma drop_bytes_add s : forall a b,
  drop_bytes (a + b) s = drop_bytes b (drop_bytes a s).
Proof.
  induction s as [|c s IH]; intros [|a] b; try done.
  - by destruct b.
  - cbn. apply IH.
Qed.

Lemma scanStart_Done s : forall base i,
  strings.scanStart s base = strings.Done i ->
  exists k, i = (base + k)%nat /\ (k <= String.length s)%nat
            /\ starts_with_space (drop_bytes k s) = false.
Proof.
  induction s as [|c t IH]; intros base i; cbn [strings.scanStart].
  - intros [= <-]. exists 0%nat. cbn. split; [lia|by split].
  - destruct (RuneSelf <=? byte c)%N; [done|].
    destruct (strings.asciiSpace (byte c)) eqn:E.
    + intros (k & -> & Hk & Hs)%IH. exists (S k). cbn. split; [lia|]. split; [lia|done].
    + intros [= <-]. exists 0%nat. cbn. split; [lia|]. split; [lia|done].
Qed.

Lemma indexFunc_Some f fuel : forall s base i,
  strings.indexFunc_from fuel s base f false = Some i ->
  exists k c t, i = (base + k)%nat /\ drop_bytes k s = String c t
                /\ f (fst (DecodeRuneInString (String c t))) = false.
Proof.
  induction fuel as [|fuel IH]; intros s base i; [done|].
  cbn [strings.indexFunc_from]. destruct s as [|c t]; [done|].
  destruct (DecodeRuneInString (String c t)) as [r size] eqn:E.
  destruct (f r) eqn:Hf; cbn [Bool.eqb].
  - intros (k & c' & t' & -> & Hd & Hr)%IH.
    exists (size + k)%nat, c', t'. split; [lia|]. by rewrite drop_bytes_add.
  - intros [= <-]. exists 0%nat, c, t. rewrite E. split; [lia|done].
Qed.

Lemma TrimLeftFunc_leading s :
  starts_with_space (strings.TrimLeftFunc s IsSpace) = false.
Proof.
  unfold strings.TrimLeftFunc, strings.indexFunc.
  destruct (strings.indexFunc_from _ _ _ _ _) as [i|] eqn:E; [|done].
  apply indexFunc_Some in E as (k & c & t & -> & Hd & Hr). cbn [Nat.add].
  rewrite Hd. by apply nonspace_rune_first_byte in Hr.
Qed.

Lemma TrimRightFunc_leading s f :
  starts_with_space s = false ->
  starts_with_space (strings.TrimRightFunc s f) = false.
Proof.
  intros H. unfold strings.TrimRightFunc, slice.
  destruct (strings.lastIndexFunc s f false); [|by apply starts_with_space_prefix].
  destruct (_ <=? _)%N; by apply starts_with_space_prefix.
Qed.

(** The trimmed string does not begin with an ASCII space. *)
Lemma TrimSpace_leading s : starts_with_space (strings.TrimSpace s) = false.
Proof.
  unfold strings.TrimSpace.
  destruct (strings.scanStart s 0) as [start|start] eqn:E.
  - apply scanStart_Done in E as (k & -> & _ & Hk). cbn [Nat.add].
    destruct (strings.scanStop _ _ _) as [stop|stop].
    + unfold slice. rewrite substring_drop. by apply starts_with_space_prefix.
    + apply TrimRightFunc_leading. unfold slice. rewrite substring_drop.
      by apply starts_with_space_prefix.
  - apply TrimRightFunc_leading, TrimLeftFunc_leading.
Qed.

Lemma substring_length s : forall i n,
  String.length (substring i n s) = Nat.min n (String.length s - i).
Proof.
  induction s as [|c s IH]; intros [|i] [|n]; cbn; try done;
    rewrite IH; lia.
Qed.

Lemma byte_at_substring s i n k :
  (k < n)%nat -> byte_at (substring i n s) k = byte_at s (i + k).
Proof.
  intros H. unfold byte_at. rewrite substring_correct1 by done.
  by rewrite (Nat.add_comm k i).
Qed.

Lemma ends_with_space_slice s i j :
  (i < j <= String.length s)%nat ->
  ends_with_space (slice s i j) = strings.asciiSpace (byte_at s (j - 1)).
Proof.
  intros H. unfold ends_with_space, slice. rewrite substring_length.
  replace (Nat.min (j - i) (String.length s - i)) with (S (j - i - 1)) by lia.
  rewrite byte_at_substring by lia. f_equal. f_equal. lia.
Qed.

Lemma scanStop_Done s start : forall n stop,
  strings.scanStop s start n = strings.Done stop ->
  stop = start
  \/ ((start < stop <= start + n)%nat
      /\ strings.asciiSpace (byte_at s (stop - 1)) = false).
Proof.
  induction n as [|n IH]; intros stop; cbn [strings.scanStop].
  - intros [= <-]. by left.
  - destruct (RuneSelf <=? _)%N; [done|].
    destruct (strings.asciiSpace _) eqn:E.
    + intros [->|[H1 H2]]%IH; [by left|]. right. split; [lia|done].
    + intros [= <-]. right. split; [lia|].
      by replace (start + S n - 1)%nat with (start + n)%nat by lia.
Qed.

Lemma lastIndexFunc_Some f t fuel : forall j i,
  strings.lastIndexFunc_from fuel t j f false = Some i ->
  exists j', (0 < j' <= j)%nat
    /\ i = (j' - snd (DecodeLastRuneInString (slice t 0 j')))%nat
    /\ f (fst (DecodeLastRuneInString (slice t 0 j'))) = false.
Proof.
  induction fuel as [|fuel IH]; intros j i; [done|].
  cbn [strings.lastIndexFunc_from]. destruct j as [|j]; [done|].
  destruct (DecodeLastRuneInString (slice t 0 (S j))) as [r size] eqn:E.
  destruct (f r) eqn:Hf; cbn [Bool.eqb].
  - intros (j' & Hj & -> & Hr)%IH. exists j'. split; [lia|done].
  - intros [= <-]. exists (S j). rewrite E. split; [lia|done].
Qed.

Lemma backScan_bound s lim : forall k,
  (backScan s lim k <= Z.of_nat (lim + k) - 1)%Z.
Proof.
  induction k as [|k IH]; cbn [backScan]; [lia|].
  destruct (RuneStart _); lia.
Qed.

Lemma substring_head s : forall i n,
  (i < String.length s)%nat -> (0 < n)%nat ->
  exists c t, substring i n s = String c t /\ byte_at s i = byte c.
Proof.
  induction s as [|a s IH]; intros i n Hi Hn; cbn in Hi; [lia|].
  destruct i as [|i].
  - destruct n as [|n]; [lia|]. by eexists _, _.
  - destruct (IH i n) as (c & t & E & Hb); [lia|done|].
    exists c, t. split; [done|]. exact Hb.
Qed.

Lemma drop_bytes_head s : forall i,
  (i < String.length s)%nat ->
  exists c t, drop_bytes i s = String c t /\ byte_at s i = byte c.
Proof.
  induction s as [|a s IH]; intros i Hi; cbn in Hi; [lia|].
  destruct i as [|i]; [by eexists _, _|].
  destruct (IH i) as (c & t & E & Hb); [lia|]. by exists c, t.
Qed.

Lemma byte_at_drop s : forall i k,
  byte_at (drop_bytes i s) k = byte_at s (i + k).
Proof.
  induction s as [|a s IH]; intros [|i] k; try done.
  apply (IH i k).
Qed.

(** The rune [DecodeLastRuneInString] finds ends the string, and is the
    byte it starts at when that byte is ASCII. *)
Lemma DecodeLast_facts u :
  u <> EmptyString ->
  (1 <= snd (DecodeLastRuneInString u) <= String.length u)%nat
  /\ ((byte_at u (String.length u - snd (DecodeLastRuneInString u)) < 0x80)%N ->
      fst (DecodeLastRuneInString u)
      = byte_at u (String.length u - snd (DecodeLastRuneInString u))).
Proof.
  intros Hne. unfold DecodeLastRuneInString.
  destruct (String.length u) as [|start] eqn:Hlen; [by destruct u|].
  destruct (N.ltb_spec (byte_at u start) RuneSelf) as [Hlo|Hhi].
  { cbn [fst snd]. split; [lia|]. intros _. f_equal. lia. }
  cbv zeta.
  set (lim := (S start - UTFMax)%nat).
  set (start' := Z.to_nat (Z.max 0 (backScan u lim (start - lim)))).
  assert (Hs : (start' < S start)%nat).
  { pose proof (backScan_bound u lim (start - lim)). subst start' lim.
    unfold UTFMax in *. lia. }
  destruct (substring_head u start' (S start - start')) as (c & t & E & Hb); [lia|lia|].
  unfold slice. rewrite E.
  pose proof (decode_decoded c t) as Hd. pose proof (decode_size c t) as Hsz.
  destruct (DecodeRuneInString (String c t)) as [r size]. cbn [snd] in Hsz.
  destruct (Nat.eqb_spec (start' + size) (S start)) as [Heq|Hneq]; cbn [fst snd].
  - split; [lia|]. replace (S start - size)%nat with start' by lia.
    rewrite Hb. intros Hlt. inversion Hd; subst; lia.
  - split; [lia|]. replace (S start - 1)%nat with start by lia.
    unfold RuneSelf in Hhi. lia.
Qed.

Lemma decoded_last_byte s r wid :
  decoded s (r, wid) -> (0x80 <= byte_at s 0)%N ->
  (1 <= wid <= String.length s)%nat /\ (0x80 <= byte_at s (wid - 1))%N.
Proof.
  intros Hd H0. inversion Hd; subst; cbn in *; (split; [lia|]); done.
Qed.

(** What [TrimRightFunc] keeps does not end with an ASCII space. *)
Lemma TrimRightFunc_trailing t :
  ends_with_space (strings.TrimRightFunc t IsSpace) = false.
Proof.
  unfold strings.TrimRightFunc, strings.lastIndexFunc.
  destruct (strings.lastIndexFunc_from _ _ _ _ _) as [i|] eqn:E;
    [|by rewrite slice_empty].
  apply lastIndexFunc_Some in E as (j' & Hj & Hi & Hr).
  assert (Hlen : String.length (slice t 0 j') = j').
  { unfold slice. rewrite substring_length. lia. }
  destruct (DecodeLast_facts (slice t 0 j')) as [Hsz Hascii].
  { intros E. rewrite E in Hlen. cbn in Hlen. lia. }
  rewrite Hlen in Hsz, Hascii. rewrite <- Hi in Hascii.
  assert (Hb : byte_at (slice t 0 j') i = byte_at t i).
  { unfold slice. rewrite byte_at_substring by lia. done. }
  rewrite Hb in Hascii.
  destruct (N.leb_spec RuneSelf (byte_at t i)) as [Hhi|Hlo].
  - destruct (drop_bytes_head t i) as (c & t' & Ed & Hc); [lia|].
    rewrite Ed. pose proof (decode_decoded c t') as Hd.
    destruct (DecodeRuneInString (String c t')) as [r wid]. cbn [snd].
    apply decoded_last_byte in Hd as [Hw Hlast];
      [|cbn; rewrite <- Hc; unfold RuneSelf in Hhi; lia].
    rewrite <- Ed, byte_at_drop in Hlast.
    rewrite <- Ed, drop_bytes_length in Hw.
    rewrite ends_with_space_slice by lia.
    apply high_not_asciiSpace.
    by replace (i + wid - 1)%nat with (i + (wid - 1))%nat by lia.
  - rewrite ends_with_space_slice by lia.
    replace (i + 1 - 1)%nat with i by lia.
    unfold RuneSelf in Hlo. rewrite <- (Hascii Hlo).
    destruct (strings.asciiSpace _) eqn:Hsp; [|done].
    by rewrite (asciiSpace_IsSpace _ Hsp) in Hr.
Qed.

(** The trimmed string does not end with an ASCII space. *)
Lemma TrimSpace_trailing s : ends_with_space (strings.TrimSpace s) = false.
Proof.
  unfold strings.TrimSpace.
  destruct (strings.scanStart s 0) as [start|start] eqn:E;
    [|apply TrimRightFunc_trailing].
  apply scanStart_Done in E as (k & -> & Hk & _). cbn [Nat.add].
  destruct (strings.scanStop _ _ _) as [stop|stop] eqn:E2;
    [|apply TrimRightFunc_trailing].
  apply scanStop_Done in E2 as [->|[H1 H2]]; [by rewrite slice_empty|].
  rewrite ends_with_space_slice by lia. done.
Qed.

(** X2: Every state [Build] hands to the connection is well formed: it has at
    least one address and at most one more than the endpoint has commas,
    and no address is empty, contains a comma, or begins or ends with an
    ASCII white-space character. *)
Theorem static_Build_publishes_clean target cc sts :
  updates (fst (loadbalancer.static_Build target cc)) = (updates cc ++ sts)%list ->
  Forall (fun st =>
    Addresses st <> []
    /\ (length (Addresses st) <= S (count_byte ","%char (Endpoint target)))%nat
    /\ Forall (fun a => Addr a <> EmptyString
                        /\ contains_byte ","%char (Addr a) = false
                        /\ starts_with_space (Addr a) = false
                        /\ ends_with_space (Addr a) = false) (Addresses st)) sts.
Proof.
  destruct (decide (loadbalancer.entries (Endpoint target) = [])) as [Hnil|Hne].
  - rewrite (static_Build_invalid _ _ Hnil). cbn [fst]. intros H.
    rewrite <- (app_nil_r (updates cc)) in H at 1.
    apply app_inv_head in H as <-. constructor.
  - rewrite (static_Build_valid _ _ Hne). cbn zeta. cbn [fst UpdateState updates].
    intros H. apply app_inv_head in H as <-.
    constructor; [|constructor]. cbn [Addresses]. split; [|split].
    + by destruct (loadbalancer.entries (Endpoint target)).
    + rewrite length_map. apply entries_length.
    + apply Forall_forall. intros a (h & -> & Hh)%list_elem_of_fmap. cbn [Addr].
      apply list_elem_of_In in Hh.
      destruct (entries_no_comma _ _ Hh) as [H1 H2].
      repeat split; [done|done| |].
      * unfold loadbalancer.entries in Hh. apply list_elem_of_In in Hh.
        apply list_elem_of_filter in Hh as [_ (p & -> & _)%list_elem_of_fmap].
        apply TrimSpace_leading.
      * unfold loadbalancer.entries in Hh. apply list_elem_of_In in Hh.
        apply list_elem_of_filter in Hh as [_ (p & -> & _)%list_elem_of_fmap].
        apply TrimSpace_trailing.
Qed.

Lemma static_Build_publishes_clean_witness :
  Forall (fun st =>
    Addresses st <> []
    /\ (length (Addresses st)
        <= S (count_byte ","%char (Endpoint (endpoint_of "  a:1 ,b:2,, "))))%nat
    /\ Forall (fun a => Addr a <> EmptyString
                        /\ contains_byte ","%char (Addr a) = false
                        /\ starts_with_space (Addr a) = false
                        /\ ends_with_space (Addr a) = false) (Addresses st))
    [ {| Addresses := [ {| Addr := "a:1" |}; {| Addr := "b:2" |} ] |} ].
Proof.
  apply (static_Build_publishes_clean (endpoint_of "  a:1 ,b:2,, ") cc0).
  vm_compute. reflexivity.
Defined.

(** *** Endpoints put together *)

Lemma Split_app s1 s2 c :
  Split (s1 ++ String c s2) c = (Split s1 c ++ Split s2 c)%list.
Proof.
  induction s1 as [|a s1 IH]; simpl_append; cbn [Split].
  - by rewrite Ascii.eqb_refl.
  - destruct (Ascii.eqb a c); rewrite IH; [done|].
    destruct (Split s1 c) as [|p ps] eqn:E; [by destruct (Split_nonempty s1 c)|done].
Qed.

Lemma entries_app e1 e2 :
  loadbalancer.entries (e1 ++ "," ++ e2)
  = (loadbalancer.entries e1 ++ loadbalancer.entries e2)%list.
Proof.
  unfold loadbalancer.entries. simpl_append.
  by rewrite Split_app, map_app, filter_app.
Qed.

Lemma published_entries target cc :
  published target cc
  = map (fun h => {| Addr := h |}) (loadbalancer.entries (Endpoint target)).
Proof.
  unfold published.
  destruct (decide (loadbalancer.entries (Endpoint target) = [])) as [Hnil|Hne].
  - rewrite (static_Build_invalid _ _ Hnil), Hnil. cbn [fst].
    by rewrite drop_all.
  - rewrite (static_Build_valid _ _ Hne). cbn zeta. cbn [fst UpdateState updates].
    rewrite drop_app_length. cbn. by rewrite app_nil_r.
Qed.

(** X3: The addresses published for the endpoint [e1,e2] are those published
    for [e1] followed by those published for [e2], whatever the connections
    are; an endpoint that is refused counts as publishing nothing. *)
Theorem static_Build_concat t t1 t2 cc cc1 cc2 :
  Endpoint t = Endpoint t1 ++ "," ++ Endpoint t2 ->
  published t cc = (published t1 cc1 ++ published t2 cc2)%list.
Proof.
  intros H. rewrite !published_entries, H, entries_app. apply map_app.
Qed.

Lemma static_Build_concat_witness :
  published (endpoint_of " a:1,, b:2 , ,c:3") cc0
  = (published (endpoint_of " a:1,, b:2 ") cc_reject
     ++ published (endpoint_of " ,c:3") cc0)%list.
Proof.
  apply static_Build_concat. vm_compute. reflexivity.
Defined.

(** ** The periodic DNS resolver, continued *)

Section Builder_Build.
Variable library_Build : string -> Target -> ClientConn -> ClientConn * option string.
Variable Error : error -> string.

Lemma Builder_Build_under_itself registry interval' :
  Get "dns" registry = Some (periodicDNSBuilder interval') ->
  forall fuel interval target cc,
    Builder_Build library_Build Error fuel registry
      (periodicDNSBuilder interval) target cc = None.
Proof.
  intros Hg. induction fuel as [|fuel IH]; intros interval target cc; [done|].
  cbn [Builder_Build]. rewrite Hg. by rewrite IH.
Qed.

(** X5: [Build] of the periodic builder returns exactly when the builder
    found under [dns] is not a periodic builder. As the scheme of the
    periodic builder is [dns], registering one makes every [Build] of a
    periodic builder call itself without end. *)
Theorem periodic_Build_returns_iff registry interval target cc :
  ((exists fuel,
       Builder_Build library_Build Error fuel registry
         (periodicDNSBuilder interval) target cc <> None)
   <-> (forall interval', Get "dns" registry <> Some (periodicDNSBuilder interval')))
  /\ (forall registry' interval' fuel,
        Builder_Build library_Build Error fuel
          (Register (periodicDNSBuilder interval') registry')
          (periodicDNSBuilder interval) target cc = None).
Proof.
  split; [split|].
  - intros [fuel Hf] interval' Hg.
    by rewrite (Builder_Build_under_itself _ _ Hg) in Hf.
  - intros Hn. exists 2%nat. cbn [Builder_Build].
    destruct (Get "dns" registry) as [d|] eqn:Hg; [|done].
    destruct d as [|i|scheme].
    + done.
    + by destruct (Hn i).
    + by destruct (library_Build scheme target cc).
  - intros registry' interval' fuel.
    apply (Builder_Build_under_itself _ interval').
    unfold Get, Register. cbn [Builder_Scheme]. apply lookup_insert_eq.
Qed.

End Builder_Build.

(** *** The life of a resolver *)

Lemma count_event_cons e x es :
  count_event e (x :: es)
  = ((if decide (x = e) then 1 else 0) + count_event e es)%nat.
Proof. unfold count_event. rewrite filter_cons. by case_decide. Qed.

(** One event on a resolver that has not been closed, other than [Close]. *)
Lemma step_open e r :
  once r = false -> done r = chan_open -> loop r = Running ->
  e <> CallClose ->
  exists r',
    step e r = Ok r'
    /\ once r' = false /\ done r' = chan_open /\ loop r' = Running
    /\ count_calls InnerResolveNow (inner r')
       = (count_calls InnerResolveNow (inner r)
          + count_event TimerTick [e] + count_event CallResolveNow [e])%nat
    /\ count_calls InnerClose (inner r') = count_calls InnerClose (inner r).
Proof.
  destruct r as [tg inn iv dn on lp]; cbn. intros -> -> -> He.
  destruct e; try done; cbn -[count_calls]; eexists; (split; [reflexivity|]);
    cbn -[count_calls]; rewrite ?count_calls_snoc; repeat split;
    unfold count_event; cbn -[count_calls]; repeat case_decide; try done;
    unfold count_calls; cbn [length]; lia.
Qed.

Lemma run_open es : forall r,
  once r = false -> done r = chan_open -> loop r = Running ->
  ~ In CallClose es ->
  exists r',
    run es r = Ok r'
    /\ once r' = false /\ done r' = chan_open /\ loop r' = Running
    /\ count_calls InnerResolveNow (inner r')
       = (count_calls InnerResolveNow (inner r)
          + count_event TimerTick es + count_event CallResolveNow es)%nat
    /\ count_calls InnerClose (inner r') = count_calls InnerClose (inner r).
Proof.
  induction es as [|e es IH]; intros r Ho Hd Hl Hn.
  - exists r. cbn. unfold count_event. cbn. repeat split; try done; lia.
  - destruct (step_open e r Ho Hd Hl) as (r1 & E & Ho1 & Hd1 & Hl1 & Hc1 & Hk1).
    { intros ->. apply Hn. by left. }
    destruct (IH r1 Ho1 Hd1 Hl1) as (r' & E' & Ho' & Hd' & Hl' & Hc' & Hk').
    { intros H. apply Hn. by right. }
    exists r'. cbn [run]. rewrite E. split; [exact E'|].
    repeat split; try done; [|congruence].
    rewrite Hc', Hc1, !(count_event_cons _ e es).
    unfold count_event. cbn. repeat case_decide; cbn; lia.
Qed.



(** After [Close], until the loop receives from [done]. *)
Lemma run_closed es : forall r r',
  done r = chan_closed -> loop r = Running ->
  run es r = Ok r' ->
  (loop r' = Returned <-> In DoneSeen es).
Proof.
  induction es as [|e es IH]; intros r r' Hd Hl; cbn [run].
  - intros [= <-]. rewrite Hl. split; [done|intros []].
  - destruct (step e r) as [r1|] eqn:E; [|done]. intros Hrun.
    destruct (decide (e = DoneSeen)) as [->|Hne].
    + split; [by left|]. intros _.
      assert (Hl1 : loop r1 = Returned).
      { cbn in E. injection E as <-. unfold refreshLoop_round. by rewrite Hl, Hd. }
      clear IH E. revert r1 r' Hl1 Hrun.
      induction es as [|e es IH]; intros r1 r' Hl1; cbn [run].
      * by intros [= <-].
      * destruct (step e r1) as [r2|] eqn:E2; [|done].
        apply IH. by destruct (step_Returned _ _ _ Hl1 E2).
    + assert (H1 : done r1 = chan_closed /\ loop r1 = Running).
      { destruct r as [tg inn iv dn on lp]; cbn in Hd, Hl; subst.
        destruct e, on; cbn in E; try done; injection E as <-; done. }
      destruct H1 as [Hd1 Hl1]. rewrite (IH _ _ Hd1 Hl1 Hrun).
      split; [by right|]. intros [H|H]; [by destruct Hne|done].
Qed.

Lemma run_loop_returned es : forall r r',
  once r = false -> done r = chan_open -> loop r = Running ->
  run es r = Ok r' ->
  (loop r' = Returned
   <-> exists es1 es2 es3, es = (es1 ++ CallClose :: es2 ++ DoneSeen :: es3)%list).
Proof.
  induction es as [|e es IH]; intros r r' Ho Hd Hl; cbn [run].
  - intros [= <-]. rewrite Hl. split; [done|].
    intros (es1 & es2 & es3 & H). by destruct es1.
  - destruct (step e r) as [r1|] eqn:E; [|done]. intros Hrun.
    destruct (decide (e = CallClose)) as [->|Hne].
    + assert (H1 : done r1 = chan_closed /\ loop r1 = Running).
      { destruct r as [tg inn iv dn on lp]; cbn in Ho, Hd, Hl; subst.
        cbn in E. by injection E as <-. }
      destruct H1 as [Hd1 Hl1]. rewrite (run_closed _ _ _ Hd1 Hl1 Hrun).
      split.
      * intros (es2 & es3 & ->)%in_split. by exists [], es2, es3.
      * intros (es1 & es2 & es3 & H). destruct es1 as [|x es1]; cbn in H.
        -- injection H as ->. apply in_or_app. right. by left.
        -- injection H as _ ->. apply in_or_app. right. right.
           apply in_or_app. right. by left.
    + destruct (step_open e r Ho Hd Hl Hne) as (r1' & E' & Ho1 & Hd1 & Hl1 & _).
      rewrite E in E'. injection E' as <-.
      rewrite (IH _ _ Ho1 Hd1 Hl1 Hrun). split.
      * intros (es1 & es2 & es3 & ->). by exists (e :: es1), es2, es3.
      * intros (es1 & es2 & es3 & H). destruct es1 as [|x es1]; cbn in H.
        -- injection H as -> _. by destruct Hne.
        -- injection H as _ ->. by exists es1, es2, es3.
Qed.


(** ** Registration and dialing, continued *)

Lemma RegisterResolvers_idempotent registry :
  RegisterResolvers (RegisterResolvers registry) = RegisterResolvers registry.
Proof. unfold RegisterResolvers, Register. apply insert_insert_eq. Qed.

(** X8: Dialing registers the static resolver again each time, and this does
    no harm: after a first dial the registry stays as it is, and a later
    dial gives what it would have given without the earlier one. *)
Theorem NewClientConn_after_dial url_Parse registry target1 target2 :
  NewClientConn url_Parse (fst (NewClientConn url_Parse registry target1)) target2
  = NewClientConn url_Parse registry target2
  /\ fst (NewClientConn url_Parse registry target2)
     = fst (NewClientConn url_Parse registry target1).
Proof.
  assert (Hfst : forall t, fst (NewClientConn url_Parse registry t)
                           = RegisterResolvers registry).
  { intros t. unfold NewClientConn. by destruct (grpc.NewClient _ _ _ _). }
  split; [|by rewrite !Hfst].
  rewrite Hfst. unfold NewClientConn. by rewrite RegisterResolvers_idempotent.
Qed.

(** X9: A target of scheme [static] always gets the static resolver of this
    package, whatever was registered under [static] before the dial. *)
Theorem NewClientConn_static url_Parse registry target u :
  url_Parse target = Some u ->
  Scheme u = "static" ->
  snd (NewClientConn url_Parse registry target)
  = inr {| grpc.target := target;
           grpc.parsedTarget := {| URL_ := u |};
           grpc.resolverBuilder := staticResolverBuilder;
           grpc.dopts := DialOptions "sharding.v1.ShardingService" |}.
Proof.
  intros Hp Hs. unfold NewClientConn, grpc.NewClient, grpc.parseTarget.
  rewrite Hp. cbn [URL_]. rewrite Hs, RegisterResolvers_static. done.
Qed.

Lemma NewClientConn_static_witness :
  exists conn,
    snd (NewClientConn url.Parse (Register (libraryBuilder "static") builtin)
           "static:///localhost:50051,localhost:50052") = inr conn
    /\ grpc.resolverBuilder conn = staticResolverBuilder
    /\ Endpoint (grpc.parsedTarget conn) = "localhost:50051,localhost:50052".
Proof.
  eexists.
  rewrite (NewClientConn_static url.Parse _
             "static:///localhost:50051,localhost:50052"
             {| Scheme := "static"; Opaque := EmptyString;
                Path := "/localhost:50051,localhost:50052" |}).
  - split; [reflexivity|]. split; reflexivity.
  - vm_compute. reflexivity.
  - reflexivity.
Defined.

Lemma RegisterResolvers_no_periodic registry :
  (forall s b, Get s registry = Some b -> is_periodic b = false) ->
  forall s b, Get s (RegisterResolvers registry) = Some b -> is_periodic b = false.
Proof.
  intros H s b. unfold Get, RegisterResolvers, Register. cbn [Builder_Scheme].
  intros [[_ <-]|[_ Hb]]%lookup_insert_Some; [done|]. by apply (H s).
Qed.

(** X10: Dialing never selects a periodic DNS builder that was not in the
    registry before: if no scheme is bound to one, the connection returned
    has none, whatever the target and the URL parser are. *)
Theorem NewClientConn_never_periodic url_Parse registry target conn :
  (forall s b, Get s registry = Some b -> is_periodic b = false) ->
  snd (NewClientConn url_Parse registry target) = inr conn ->
  is_periodic (grpc.resolverBuilder conn) = false
  /\ forall s b, Get s (fst (NewClientConn url_Parse registry target)) = Some b ->
                 is_periodic b = false.
Proof.
  intros H. pose proof (RegisterResolvers_no_periodic _ H) as H'.
  unfold NewClientConn.
  destruct (grpc.NewClient _ _ _ _) as [e|c] eqn:E; cbn [fst snd]; [done|].
  intros [= <-]. split; [|exact H'].
  unfold grpc.NewClient, grpc.withDefaultScheme in E.
  repeat match type of E with
  | match ?x with _ => _ end = _ => destruct x eqn:?; try discriminate E
  end; injection E as <-; cbn [grpc.resolverBuilder]; eapply H'; eassumption.
Qed.

Lemma builtin_no_periodic s b : Get s builtin = Some b -> is_periodic b = false.
Proof.
  unfold Get, builtin. intros H.
  repeat (apply lookup_insert_Some in H as [[_ <-]|[_ H]]; [done|]).
  by rewrite lookup_empty in H.
Qed.

Lemma NewClientConn_never_periodic_witness :
  exists conn,
    snd (NewClientConn url.Parse builtin "dns:///svc.cluster.local:50051") = inr conn
    /\ is_periodic (grpc.resolverBuilder conn) = false.
Proof.
  eexists. split; [vm_compute; reflexivity|].
  refine (proj1 (NewClientConn_never_periodic url.Parse builtin
                   "dns:///svc.cluster.local:50051" _ builtin_no_periodic _)).
  vm_compute. reflexivity.
Defined.

Lemma NewClientConn_dopts url_Parse registry target conn :
  snd (NewClientConn url_Parse registry target) = inr conn ->
  grpc.dopts conn = DialOptions "sharding.v1.ShardingService".
Proof.
  unfold NewClientConn.
  destruct (grpc.NewClient _ _ _ _) as [e|c] eqn:E; cbn [snd]; [done|].
  intros [= <-].
  unfold grpc.NewClient, grpc.withDefaultScheme in E.
  repeat match type of E with
  | match ?x with _ => _ end = _ => destruct x eqn:?; try discriminate E
  end; by injection E as <-.
Qed.

(** X11: The client and the server agree on the health service: every
    connection [NewClientConn] returns carries one default service config,
    which is valid JSON, and the service name it asks the health service
    about is one that [RegisterHealthServer] has set to SERVING. *)
Theorem health_service_names_agree url_Parse registry target conn server :
  snd (NewClientConn url_Parse registry target) = inr conn ->
  exists config name,
    (forall c, In (grpc.WithDefaultServiceConfig c) (grpc.dopts conn) <-> c = config)
    /\ health_service_of config = Some (JString name)
    /\ health.GetServingStatus name (snd (RegisterHealthServer server))
       = health.SERVING.
Proof.
  intros H. rewrite (NewClientConn_dopts _ _ _ _ H).
  exists (DefaultServiceConfig "sharding.v1.ShardingService"),
         "sharding.v1.ShardingService".
  split; [|split].
  - intros c. unfold DialOptions. cbn [In]. split.
    + intros [H1|[H1|[H1|[H1|[]]]]]; try discriminate H1. by injection H1.
    + intros ->. right. by left.
  - unfold health_service_of. rewrite DefaultServiceConfig_Unmarshal.
    vm_compute. reflexivity.
  - unfold RegisterHealthServer. cbn [snd]. apply GetServingStatus_set.
Qed.

Lemma health_service_names_agree_witness :
  exists config name,
    In (grpc.WithDefaultServiceConfig config)
       (DialOptions "sharding.v1.ShardingService")
    /\ health_service_of config = Some (JString name)
    /\ health.GetServingStatus name
         (snd (RegisterHealthServer {| grpc.services := [] |})) = health.SERVING.
Proof.
  destruct (health_service_names_agree url.Parse builtin
              "static:///localhost:50051"
              {| grpc.target := "static:///localhost:50051";
                 grpc.parsedTarget :=
                   {| URL_ := {| Scheme := "static"; Opaque := EmptyString;
                                 Path := "/localhost:50051" |} |};
                 grpc.resolverBuilder := staticResolverBuilder;
                 grpc.dopts := DialOptions "sharding.v1.ShardingService" |}
              {| grpc.services := [] |})
    as (config & name & H1 & H2 & H3).
  - vm_compute. reflexivity.
  - exists config, name. split; [|by split]. by apply H1.
Defined.

(** ** The cluster configuration *)

Lemma env_fallback environ key fallback :
  fallback <> EmptyString -> config.env environ key fallback <> EmptyString.
Proof.
  intros Hf. unfold config.env.
  destruct (String.eqb_spec (config.Getenv environ key) EmptyString) as [E|E]; done.
Qed.

(** X12: Whatever the environment holds, none of the seven settings [Load]
    takes from it is empty: a variable that is set but empty gives the
    default, like one that is not set. *)
Theorem Load_settings_nonempty environ :
  Forall (fun s => s <> EmptyString) (config.settings (config.Load environ)).
Proof.
  unfold config.settings, config.Load. cbn.
  repeat (constructor; [by apply env_fallback|]). constructor.
Qed.

Lemma env_insert_eq environ key v fallback :
  v <> EmptyString -> config.env (<[key:=v]> environ) key fallback = v.
Proof.
  intros Hv. unfold config.env, config.Getenv. rewrite lookup_insert_eq.
  by destruct (String.eqb_spec v EmptyString).
Qed.

Lemma env_insert_ne environ key key' v fallback :
  key <> key' ->
  config.env (<[key:=v]> environ) key' fallback = config.env environ key' fallback.
Proof.
  intros Hne. unfold config.env, config.Getenv. by rewrite lookup_insert_ne.
Qed.

(** X13: Setting the [i]-th variable to a value that is not empty changes the
    [i]-th setting to that value and nothing else of the configuration. *)
Theorem Load_override environ i key v :
  config.variables !! i = Some key ->
  v <> EmptyString ->
  config.settings (config.Load (<[key:=v]> environ))
  = <[i:=v]> (config.settings (config.Load environ))
  /\ config.ConfigRS (config.Load (<[key:=v]> environ))
     = config.ConfigRS (config.Load environ)
  /\ config.Shards (config.Load (<[key:=v]> environ))
     = config.Shards (config.Load environ)
  /\ config.MongosHosts (config.Load (<[key:=v]> environ))
     = config.MongosHosts (config.Load environ).
Proof.
  intros Hk Hv. split; [|by repeat split].
  unfold config.settings, config.Load. cbn [config.AdminUser config.AdminPassword
    config.AppUser config.AppPassword config.ReadOnlyUser config.ReadOnlyPassword
    config.AppDatabase].
  do 7 (destruct i as [|i]; [injection Hk as <-; cbn [list_insert insert];
    rewrite (env_insert_eq _ _ _ _ Hv); rewrite !env_insert_ne by done;
    reflexivity|]).
  discriminate Hk.
Qed.

Lemma Load_override_witness :
  config.settings
    (config.Load (<["MONGO_APP_PASSWORD":="s3cret"]> (∅ : gmap string string)))
  = [ "clusterAdmin"; "admin123"; "appUser"; "s3cret"; "readOnlyUser"; "read123";
      "sharding_poc" ].
Proof.
  refine (proj1 (Load_override (∅ : gmap string string) 3
                   "MONGO_APP_PASSWORD" "s3cret" _ _)).
  - reflexivity.
  - discriminate.
Defined.

Lemma env_empty environ key key' fallback :
  config.env (<[key:=EmptyString]> environ) key' fallback
  = config.env (delete key environ) key' fallback.
Proof.
  unfold config.env, config.Getenv.
  destruct (decide (key = key')) as [->|Hne].
  - by rewrite lookup_insert_eq, lookup_delete_eq.
  - by rewrite lookup_insert_ne, lookup_delete_ne.
Qed.

(** X14: For [Load], a variable set to the empty string is the same as a
    variable that is not set. *)
Theorem Load_empty_is_unset environ key :
  config.Load (<[key:=EmptyString]> environ) = config.Load (delete key environ).
Proof. unfold config.Load. by rewrite !env_empty. Qed.

(** *** Addresses and connection strings *)

Lemma contains_byte_app c s1 s2 :
  contains_byte c (s1 ++ s2) = contains_byte c s1 || contains_byte c s2.
Proof.
  induction s1 as [|a s1 IH]; simpl_append; cbn [contains_byte]; [done|].
  by rewrite IH, orb_assoc.
Qed.

Lemma Split_Join c l :
  l <> [] -> Forall (fun p => contains_byte c p = false) l ->
  Split (Join l (String c EmptyString)) c = l.
Proof.
  induction l as [|e l IH]; [done|]. intros _ HF.
  apply Forall_cons in HF as [He Hl]. destruct l as [|e' l].
  - cbn [Join]. by apply Split_without_sep.
  - change (Join (e :: e' :: l) (String c EmptyString))
      with (e ++ String c EmptyString ++ Join (e' :: l) (String c EmptyString)).
    simpl_append. rewrite Split_app, (Split_without_sep _ _ He), IH by done. done.
Qed.

(** X15: The connection string of [AddShard] can be read back: it begins with
    the name of the replica set and a slash, and when no host and no port
    contains a comma or a colon, splitting the rest at the commas and each
    piece at the colon gives the hosts and ports of the members, in
    order. *)
Theorem shardConn_round_trip rsName members :
  members <> [] ->
  Forall (fun m =>
            contains_byte ","%char (config.Host m) = false
            /\ contains_byte ","%char (config.Port m) = false
            /\ contains_byte ":"%char (config.Host m) = false
            /\ contains_byte ":"%char (config.Port m) = false) members ->
  slice (cluster.shardConn rsName members) 0 (S (String.length rsName))
  = rsName ++ "/"
  /\ map (fun a => Split a ":"%char)
         (Split (drop_bytes (S (String.length rsName))
                            (cluster.shardConn rsName members)) ","%char)
     = map (fun m => [config.Host m; config.Port m]) members.
Proof.
  intros Hne HF. unfold cluster.shardConn. cbv zeta.
  assert (E : rsName ++ "/" ++ Join (map config.Addr members) ","
              = (rsName ++ "/") ++ Join (map config.Addr members) ",")
    by (by rewrite append_assoc).
  assert (Hlen : String.length (rsName ++ "/") = S (String.length rsName)).
  { rewrite length_append. cbn. lia. }
  rewrite E. split; [by apply slice_append_n|].
  rewrite (drop_append_n _ _ _ Hlen).
  rewrite Split_Join.
  - rewrite map_map. apply map_ext_in. intros m Hm.
    rewrite Forall_forall in HF.
    destruct (HF m) as (_ & _ & H3 & H4); [by apply list_elem_of_In|].
    unfold config.Addr. simpl_append.
    by rewrite Split_app, (Split_without_sep _ _ H3), (Split_without_sep _ _ H4).
  - by destruct members.
  - apply Forall_fmap. eapply Forall_impl; [exact HF|].
    intros m (H1 & H2 & _). cbn. unfold config.Addr.
    rewrite !contains_byte_app, H1, H2. done.
Qed.

Lemma shardConn_round_trip_witness :
  map (fun a => Split a ":"%char)
      (Split (drop_bytes 9
                (cluster.shardConn "shard1rs"
                   (config.Members (hd (config.ConfigRS (config.Load ∅))
                                       (config.Shards (config.Load ∅))))))
             ","%char)
  = [ ["shard1-1"; "27022"]; ["shard1-2"; "27023"]; ["shard1-3"; "27024"] ].
Proof.
  refine (proj2 (shardConn_round_trip "shard1rs"
                   (config.Members (hd (config.ConfigRS (config.Load ∅))
                                       (config.Shards (config.Load ∅)))) _ _)).
  - discriminate.
  - cbn. repeat constructor.
Defined.

(** ** Inserting in batches *)

Lemma wrap64_small z :
  (- 2 ^ 63 <= z < 2 ^ 63)%Z -> sharding.wrap64 z = z.
Proof.
  intros H. unfold sharding.wrap64.
  rewrite Z.mod_small by lia. lia.
Qed.

Lemma concat_nil_batches {A} (batches : list (list A)) :
  Forall (fun b => (1 <= length b <= 1000)%nat) batches ->
  concat batches = [] -> batches = [].
Proof.
  intros HF Hc. destruct batches as [|b bs]; [done|].
  apply Forall_cons in HF as [Hb _]. destruct b; [cbn in Hb; lia|done].
Qed.

(** The loop of [batchInsert], entered at index [i]. *)
Lemma batchInsert_from_spec {A} (docs : list A) : forall fuel i coll,
  (Z.of_nat (length docs) + sharding.batchSize < 2 ^ 63)%Z ->
  (0 <= i)%Z ->
  (Z.to_nat (Z.of_nat (length docs) - i) < fuel)%nat ->
  exists coll' err batches,
    sharding.batchInsert_from fuel i docs coll = (coll', sharding.Returns err)
    /\ sharding.reject coll' = sharding.reject coll
    /\ sharding.inserted coll' = (sharding.inserted coll ++ batches)%list
    /\ Forall (fun b => (1 <= length b <= 1000)%nat) batches
    /\ (forall bs b, batches = (bs ++ [b])%list ->
                     Forall (fun x => length x = 1000%nat) bs)
    /\ concat batches `prefix_of` drop (Z.to_nat i) docs
    /\ (err = None -> concat batches = drop (Z.to_nat i) docs)
    /\ (forall e, err = Some e ->
          exists bs b, batches = (bs ++ [b])%list
                       /\ sharding.reject coll (sharding.inserted coll ++ bs)%list b
                          = Some e).
Proof.
  unfold sharding.batchSize.
  induction fuel as [|fuel IH]; intros i coll Hlen Hi Hfuel; [lia|].
  cbn [sharding.batchInsert_from].
  destruct (Z.ltb_spec i (Z.of_nat (length docs))) as [Hlt|Hge].
  2:{ exists coll, None, []. rewrite app_nil_r.
      assert (Hd : drop (Z.to_nat i) docs = []) by (apply drop_ge; lia).
      rewrite Hd. repeat split; try done.
      intros bs b Hbs. by destruct bs. }
  unfold sharding.batchSize. rewrite wrap64_small by lia.
  set (end_ := if (i + 1000 >? Z.of_nat (length docs))%Z
               then Z.of_nat (length docs) else (i + 1000)%Z).
  assert (Hend : (i < end_ <= Z.of_nat (length docs))%Z
                 /\ (end_ <= i + 1000)%Z
                 /\ ((i + 1000 <= Z.of_nat (length docs))%Z -> end_ = (i + 1000)%Z)
                 /\ ((Z.of_nat (length docs) <= i + 1000)%Z
                     -> end_ = Z.of_nat (length docs))).
  { subst end_. destruct (Z.gtb_spec (i + 1000) (Z.of_nat (length docs))); lia. }
  destruct Hend as (He1 & He2 & He3 & He4).
  unfold sharding.subslice.
  destruct (Z.leb_spec 0 i); [|lia]. destruct (Z.leb_spec i end_); [|lia].
  destruct (Z.leb_spec end_ (Z.of_nat (length docs))); [|lia]. cbn [andb].
  set (batch := take (Z.to_nat (end_ - i)) (drop (Z.to_nat i) docs)).
  assert (Hb : length batch = Z.to_nat (end_ - i)).
  { subst batch. rewrite length_take, length_drop. lia. }
  unfold sharding.InsertMany.
  destruct (sharding.reject coll (sharding.inserted coll) batch) as [e|] eqn:Hr.
  - exists {| sharding.inserted := (sharding.inserted coll ++ [batch])%list;
              sharding.reject := sharding.reject coll |}, (Some e), [batch].
    cbn [sharding.inserted sharding.reject]. repeat split; try done.
    + constructor; [lia|constructor].
    + intros bs b Hbs. destruct bs as [|x bs]; [constructor|].
      destruct bs; discriminate Hbs.
    + cbn. rewrite app_nil_r. subst batch. eexists. symmetry. apply take_drop.
    + intros e' [= <-]. exists [], batch. split; [done|]. by rewrite app_nil_r.
  - set (coll1 := {| sharding.inserted := (sharding.inserted coll ++ [batch])%list;
                     sharding.reject := sharding.reject coll |}).
    destruct (IH (i + 1000)%Z coll1 Hlen ltac:(lia) ltac:(lia))
      as (coll' & err & batches & E & Hrej & Hins & HF & Hfull & Hpre & Hnone & Hsome).
    exists coll', err, (batch :: batches). rewrite E.
    assert (Hdrop : drop (Z.to_nat (i + 1000)) docs
                    = drop (Z.to_nat (end_ - i)) (drop (Z.to_nat i) docs)).
    { rewrite drop_drop.
      destruct (Z.le_gt_cases (i + 1000) (Z.of_nat (length docs))) as [Hle|Hgt].
      - rewrite (He3 Hle). f_equal. lia.
      - rewrite (He4 ltac:(lia)). rewrite !drop_ge by lia. done. }
    split; [done|]. split; [done|]. split.
    { rewrite Hins. cbn [sharding.inserted coll1]. by rewrite <- app_assoc. }
    split; [constructor; [lia|done]|]. split.
    { intros bs b Hbs. destruct bs as [|x bs]; [constructor|].
      injection Hbs as <- Hbs. constructor; [|by apply (Hfull bs b)].
      destruct (Z.le_gt_cases (i + 1000) (Z.of_nat (length docs))) as [Hle|Hgt].
      - rewrite Hb, (He3 Hle). lia.
      - exfalso. rewrite drop_ge in Hpre by lia.
        apply prefix_nil_inv in Hpre.
        apply concat_nil_batches in Hpre; [|done]. subst batches.
        by destruct bs. }
    split.
    { cbn [concat]. rewrite <- (take_drop (Z.to_nat (end_ - i)) (drop (Z.to_nat i) docs)).
      fold batch. apply prefix_app. by rewrite <- Hdrop. }
    split.
    { intros Hn. cbn [concat]. rewrite (Hnone Hn), Hdrop. apply take_drop. }
    intros e He. destruct (Hsome e He) as (bs & b & -> & Hrb).
    exists (batch :: bs), b. split; [done|].
    cbn [sharding.inserted sharding.reject coll1] in Hrb.
    by rewrite <- app_assoc in Hrb.
Qed.



(** ** Averages *)

Lemma fold_sum_bounds lo hi : forall durations total k,
  (0 <= lo)%Z ->
  Forall (fun d => (lo <= d <= hi)%Z) durations ->
  (k * lo <= total <= k * hi)%Z -> (0 <= k)%Z ->
  ((k + Z.of_nat (length durations)) * hi < 2 ^ 63)%Z ->
  let n := (k + Z.of_nat (length durations))%Z in
  (n * lo
   <= fold_left (fun total d => sharding.wrap64 (total + d)) durations total
   <= n * hi)%Z.
Proof.
  induction durations as [|d ds IH]; intros total k Hlo HF Ht Hk Hn; cbn zeta.
  - cbn. rewrite Z.add_0_r. exact Ht.
  - apply Forall_cons in HF as [Hd HF]. cbn [fold_left length] in *.
    assert (Hhi : (0 <= hi)%Z) by lia.
    rewrite wrap64_small by nia.
    replace (k + Z.of_nat (S (length ds)))%Z
      with ((k + 1) + Z.of_nat (length ds))%Z by lia.
    apply IH; try done; lia.
Qed.

(** X18: The average of durations that are not negative lies between the
    least and the greatest of them, as long as their number times the
    greatest fits an [int64], so that the sum does not wrap around. *)
Theorem avgDuration_bounds durations lo hi :
  durations <> [] ->
  (0 <= lo)%Z ->
  Forall (fun d => (lo <= d <= hi)%Z) durations ->
  (Z.of_nat (length durations) * hi < 2 ^ 63)%Z ->
  (lo <= operations.avgDuration durations <= hi)%Z.
Proof.
  intros Hne Hlo HF Hn. unfold operations.avgDuration.
  destruct durations as [|d ds] eqn:E; [done|]. rewrite <- E in *. clear E d ds.
  pose proof (fold_sum_bounds lo hi durations 0 0 Hlo HF ltac:(lia) ltac:(lia)) as H.
  cbn zeta in H. rewrite Z.add_0_l in H. specialize (H Hn).
  set (total := fold_left _ durations 0%Z) in *.
  set (n := Z.of_nat (length durations)) in *.
  assert (Hpos : (0 < n)%Z) by (subst n; destruct durations; [done|cbn; lia]).
  rewrite Z.quot_div_nonneg by nia.
  split.
  - apply Z.div_le_lower_bound; lia.
  - apply Z.div_le_upper_bound; lia.
Qed.

Lemma avgDuration_bounds_witness :
  (10 <= operations.avgDuration [10; 25; 40; 12] <= 40)%Z.
Proof.
  apply avgDuration_bounds.
  - discriminate.
  - lia.
  - repeat constructor; lia.
  - cbn. lia.
Defined.

(** ** Targets made of clean addresses *)

Lemma substring_all s : substring 0 (String.length s) s = s.
Proof. induction s as [|c s IH]; cbn; [done|]. by rewrite IH. Qed.

Lemma TrimSpace_clean h : clean h = true -> strings.TrimSpace h = h.
Proof.
  destruct h as [|c t]; [done|]. unfold clean, graphic.
  intros [[_ [H1 H2]%andb_true_iff]%andb_true_iff [H3 H4]%andb_true_iff]%andb_true_iff.
  apply N.ltb_lt in H1, H3. apply negb_true_iff in H2, H4.
  unfold strings.TrimSpace. cbn [strings.scanStart].
  change (byte_at (String c t) 0) with (byte c) in H1, H2.
  destruct (N.leb_spec RuneSelf (byte c)) as [Hhi|_];
    [unfold RuneSelf in Hhi; lia|].
  rewrite H2. rewrite Nat.sub_0_r.
  cbn [String.length] in *. cbn [strings.scanStop Nat.add].
  replace (S (String.length t) - 1)%nat with (String.length t) in H3, H4 by lia.
  destruct (N.leb_spec RuneSelf (byte_at (String c t) (String.length t))) as [Hhi|_];
    [unfold RuneSelf in Hhi; lia|].
  rewrite H4. unfold slice. rewrite Nat.sub_0_r.
  apply (substring_all (String c t)).
Qed.

Lemma clean_no_comma h : clean h = true -> contains_byte ","%char h = false.
Proof.
  destruct h as [|c t]; [done|]. unfold clean.
  intros [[H _]%andb_true_iff _]%andb_true_iff. by apply negb_true_iff in H.
Qed.

Lemma clean_nonempty h : clean h = true -> h <> EmptyString.
Proof. by destruct h. Qed.

Lemma entries_Join hs :
  hs <> [] -> Forall (fun h => clean h = true) hs ->
  loadbalancer.entries (Join hs ",") = hs.
Proof.
  intros Hne HF. unfold loadbalancer.entries.
  rewrite Split_Join; [|done|by eapply Forall_impl; [exact HF|apply clean_no_comma]].
  clear Hne. induction hs as [|h hs IH]; [done|].
  apply Forall_cons in HF as [Hh HF]. cbn [map].
  rewrite (TrimSpace_clean _ Hh), filter_cons_True by by apply clean_nonempty.
  by rewrite IH.
Qed.

(** X4: A target written as clean addresses joined by commas is read back as
    it was written: [Build] publishes exactly these addresses, in their
    order, and does not refuse the target. *)
Theorem static_Build_round_trip target cc hs :
  hs <> [] ->
  Forall (fun h => clean h = true) hs ->
  Endpoint target = Join hs "," ->
  published target cc = map (fun h => {| Addr := h |}) hs
  /\ snd (static_Build target cc)
     = match verdict cc {| Addresses := map (fun h => {| Addr := h |}) hs |} with
       | Some e => inl (ErrUpdateState e)
       | None => inr mk_staticResolver
       end.
Proof.
  intros Hne HF HE.
  pose proof (entries_Join hs Hne HF) as He. rewrite <- HE in He.
  split; [by rewrite published_entries, He|].
  rewrite static_Build_valid by (rewrite He; exact Hne).
  cbn zeta. cbn [snd]. by rewrite He.
Qed.

Lemma static_Build_round_trip_witness :
  published (endpoint_of "localhost:50051,10.0.0.2:50052") cc0
  = [ {| Addr := "localhost:50051" |}; {| Addr := "10.0.0.2:50052" |} ].
Proof.
  refine (proj1 (static_Build_round_trip
                   (endpoint_of "localhost:50051,10.0.0.2:50052") cc0
                   ["localhost:50051"; "10.0.0.2:50052"] _ _ _)).
  - discriminate.
  - repeat constructor.
  - reflexivity.
Defined.

(** ** Shortening a string *)

Lemma iter_append_length s n :
  String.length (Nat.iter n (fun r => s ++ r) EmptyString)
  = (n * String.length s)%nat.
Proof.
  induction n as [|n IH]; [done|]. rewrite Nat.iter_succ, length_append, IH.
  cbn. lia.
Qed.

Lemma cluster_wrap64_small z :
  (- 2 ^ 63 <= z < 2 ^ 63)%Z -> cluster.wrap64 z = z.
Proof.
  intros H. unfold cluster.wrap64. rewrite Z.mod_small by lia. lia.
Qed.

(** X16: For a [max] from which 3 can be subtracted without overflow,
    [truncate] panics exactly when the string is longer than [max] and
    [max] is less than 3; otherwise it returns a string of exactly [max]
    bytes: the string itself, padded, when it is not longer than [max],
    and its first [max - 3] bytes followed by three dots when it is. *)
Theorem truncate_length s max :
  (- 2 ^ 63 + 3 <= max < 2 ^ 63)%Z ->
  (cluster.truncate s max = None
   <-> (max < Z.of_nat (String.length s) /\ max < 3)%Z)
  /\ (forall r, cluster.truncate s max = Some r ->
        Z.of_nat (String.length r) = max
        /\ ((Z.of_nat (String.length s) <= max)%Z ->
            slice r 0 (String.length s) = s)
        /\ ((max < Z.of_nat (String.length s))%Z ->
            r = slice s 0 (Z.to_nat (max - 3)) ++ "...")).
Proof.
  intros Hmax. unfold cluster.truncate. cbv zeta.
  destruct (Z.leb_spec (Z.of_nat (String.length s)) max) as [Hle|Hgt].
  - rewrite cluster_wrap64_small by lia. unfold cluster.Repeat.
    destruct (Z.ltb_spec (max - Z.of_nat (String.length s)) 0) as [Hn|_]; [lia|].
    split; [split; [done|lia]|].
    intros r [= <-]. split; [|split; [|lia]].
    + rewrite length_append, iter_append_length. cbn. lia.
    + intros _. apply slice_append.
  - destruct (Z.lt_ge_cases max 3) as [H3|H3].
    + rewrite cluster_wrap64_small by lia.
      destruct (Z.leb_spec 0 (max - 3)); [lia|]. cbn [andb].
      split; [split; [lia|done]|done].
    + rewrite cluster_wrap64_small by lia.
      destruct (Z.leb_spec 0 (max - 3)); [|lia].
      destruct (Z.leb_spec (max - 3) (Z.of_nat (String.length s))); [|lia].
      cbn [andb]. split; [split; [done|lia]|].
      intros r [= <-]. split; [|split; [lia|done]].
      rewrite length_append. unfold slice. rewrite substring_length. cbn. lia.
Qed.

Lemma truncate_length_witness :
  cluster.truncate "ab" 1 = None
  /\ cluster.truncate "shard1rs/shard1-1:27022" 12 = Some "shard1rs/...".
Proof.
  destruct (truncate_length "ab" 1) as [H1 _]; [lia|].
  destruct (truncate_length "shard1rs/shard1-1:27022" 12) as [_ H2]; [lia|].
  split.
  - apply H1. cbn. lia.
  - destruct (cluster.truncate "shard1rs/shard1-1:27022" 12) as [r|] eqn:E;
      [|discriminate E].
    destruct (H2 r eq_refl) as (_ & _ & H3). rewrite H3 by (cbn; lia). reflexivity.
Defined.
